(** * EnvoyAPI: the cache-priming resource loader and the storage pipeline

    A shallow embedding of [src/EnvoyAPI.ts] (the [dataLoader], the response
    interceptor installed by the constructor, [storagePipeline]) and of
    [EnvoyPluginStoragePipeline].

    The loader is an instance of the [dataloader] package; its operations
    [load], [prime], [clear], the batch dispatch and [failedDispatch] are
    embedded here the way the package implements them, specialised to the
    options [EnvoyAPI] passes (a [cacheKeyFn], no batch size limit, the
    default [Map] cache).  Promises live in an explicit store, so that a
    pending promise shared by several callers is one object. *)

From stdpp Require Import gmap strings list fin_maps pretty.

Set Warnings "-register-all".
Open Scope string_scope.
Open Scope list_scope.

(** ** JavaScript values

    Response bodies, resources and storage commands are plain JSON data.
    Numbers are the integers (printed in decimal, which is what [ToString]
    gives below 10^21); the code never computes with them. *)

Inductive value : Type :=
| VUndefined
| VNull
| VBool (b : bool)
| VNum (n : Z)
| VStr (s : string)
| VArr (items : list value)
| VObj (fields : list (string * value)).

Inductive JSError : Type :=
| TypeError
| AxiosError (message : string).

(** A completion: a normal result or a thrown error (a rejected promise for
    an [async] function). *)
Inductive Completion (A : Type) : Type :=
| Normal (a : A)
| Throw (e : JSError).
Arguments Normal {A} a.
Arguments Throw {A} e.

(** [ToBoolean]. *)
Definition truthy (v : value) : bool :=
  match v with
  | VUndefined | VNull => false
  | VBool b => b
  | VNum n => negb (Z.eqb n 0)
  | VStr s => negb (String.eqb s "")
  | VArr _ | VObj _ => true
  end.

(** [ToString], as a template literal applies it. *)
Fixpoint toString (v : value) : string :=
  match v with
  | VUndefined => "undefined"
  | VNull => "null"
  | VBool true => "true"
  | VBool false => "false"
  | VNum n => pretty n
  | VStr s => s
  | VArr items =>
      (fix join (l : list value) : string :=
         match l with
         | [] => ""
         | x :: l' =>
             let sx := match x with
                       | VUndefined | VNull => ""
                       | _ => toString x
                       end in
             match l' with
             | [] => sx
             | _ :: _ => sx +:+ "," +:+ join l'
             end
         end) items
  | VObj _ => "[object Object]"
  end.

(** Own property lookup in an object literal; a missing property reads as
    [undefined]. *)
Fixpoint field (k : string) (fs : list (string * value)) : value :=
  match fs with
  | [] => VUndefined
  | (k', v) :: fs' => if String.eqb k k' then v else field k fs'
  end.

(** [v.k] for the property names the code reads ([data], [included], [type],
    [id]), none of which a built-in prototype defines: reading a property of
    [undefined] or [null] throws, a primitive or an array has no such
    property. *)
Definition getProp (v : value) (k : string) : Completion value :=
  match v with
  | VUndefined | VNull => Throw TypeError
  | VObj fs => Normal (field k fs)
  | _ => Normal VUndefined
  end.

(** ** Keys and the alias table *)

(** [EnvoyWebDataLoaderKey]: a JSON-API identity with an optional [include].
    The fields are run-time values: the interceptor builds keys from
    whatever [model.type] and [model.id] hold. *)
Record EnvoyWebDataLoaderKey : Type := mkKey {
  k_type : value;
  k_id : value;
  k_include : value;
}.

Definition TYPE_ALIASES : gmap string string :=
  {[ "employee-screening-flows" := "flows" ]}.

(** [TYPE_ALIASES.get(t)]: only a string can equal a key of the map. *)
Definition TYPE_ALIASES_get (t : value) : value :=
  match t with
  | VStr s => match TYPE_ALIASES !! s with
              | Some a => VStr a
              | None => VUndefined
              end
  | _ => VUndefined
  end.

(** [cacheKeyFn: (key) => `${key.type}_${key.id}`] *)
Definition cacheKeyFn (key : EnvoyWebDataLoaderKey) : string :=
  toString (k_type key) +:+ "_" +:+ toString (k_id key).

(** ** The transport *)

Record AxiosRequest : Type := mkRequest {
  req_method : string;
  req_url : string;
  req_params : value;
  req_data : value;
}.

Record AxiosResponse : Type := mkResponse {
  resp_status : Z;
  resp_data : value;
}.

Inductive AxiosOutcome : Type :=
| Success (response : AxiosResponse)
| Failure (error : JSError).

(** [this.axios.get(`api/v3/${type}/${id}`, { params: { include } })] *)
Definition fetchRequest (key : EnvoyWebDataLoaderKey) : AxiosRequest :=
  {| req_method := "GET";
     req_url := "api/v3/" +:+ toString (k_type key) +:+ "/" +:+ toString (k_id key);
     req_params := VObj [("include", k_include key)];
     req_data := VUndefined |}.

(** ** Promises and the loader state *)

Inductive PromiseState : Type :=
| Pending
| Fulfilled (v : value)
| Rejected (e : JSError).

Inductive Slot : Type :=
| Waiting
| Done (v : value)
| Failed.

(** A dispatched batch: its keys, the promise of each key, what each per-key
    fetch has answered so far, and whether the [Promise.all] over them has
    settled. *)
Record Batch : Type := mkBatch {
  b_keys : list EnvoyWebDataLoaderKey;
  b_callbacks : list nat;
  b_slots : list Slot;
  b_settled : bool;
}.

(** The state of an [EnvoyAPI] instance: the loader's cache (cache key to
    promise), the promise store, the batch being collected in the current
    tick, the dispatched batches, and the log of requests handed to axios. *)
Record EnvoyAPI : Type := mkAPI {
  cacheMap : gmap string nat;
  promises : list PromiseState;
  batch_keys : list EnvoyWebDataLoaderKey;
  batch_callbacks : list nat;
  inflight : list Batch;
  requests : list AxiosRequest;
}.

Definition newEnvoyAPI : EnvoyAPI :=
  {| cacheMap := ∅; promises := []; batch_keys := []; batch_callbacks := [];
     inflight := []; requests := [] |}.

(** *** DataLoader operations *)

(** [load(key)]: a cache hit returns the cached promise; otherwise the key is
    enqueued in the current batch with a new pending promise, which is
    cached.  (Version 2 of the package wraps a hit in a promise that adopts
    the cached one; the caller observes the cached promise's settlement
    either way.) *)
Definition load (key : EnvoyWebDataLoaderKey) (s : EnvoyAPI) : nat * EnvoyAPI :=
  let cacheKey := cacheKeyFn key in
  match cacheMap s !! cacheKey with
  | Some cachedPromise => (cachedPromise, s)
  | None =>
      let promise := length (promises s) in
      (promise,
       {| cacheMap := <[cacheKey := promise]> (cacheMap s);
          promises := promises s ++ [Pending];
          batch_keys := batch_keys s ++ [key];
          batch_callbacks := batch_callbacks s ++ [promise];
          inflight := inflight s;
          requests := requests s |})
  end.

(** [prime(key, value)]: only adds the key if it does not already exist. *)
Definition prime (key : EnvoyWebDataLoaderKey) (v : value) (s : EnvoyAPI) : EnvoyAPI :=
  let cacheKey := cacheKeyFn key in
  match cacheMap s !! cacheKey with
  | Some _ => s
  | None =>
      {| cacheMap := <[cacheKey := length (promises s)]> (cacheMap s);
         promises := promises s ++ [Fulfilled v];
         batch_keys := batch_keys s;
         batch_callbacks := batch_callbacks s;
         inflight := inflight s;
         requests := requests s |}
  end.

(** [clear(key)] *)
Definition clear (key : EnvoyWebDataLoaderKey) (s : EnvoyAPI) : EnvoyAPI :=
  {| cacheMap := delete (cacheKeyFn key) (cacheMap s);
     promises := promises s;
     batch_keys := batch_keys s;
     batch_callbacks := batch_callbacks s;
     inflight := inflight s;
     requests := requests s |}.

(** Settling a promise: resolving or rejecting a settled promise does
    nothing. *)
Definition settle (p : nat) (st : PromiseState) (ps : list PromiseState)
  : list PromiseState :=
  match ps !! p with
  | Some Pending => <[p := st]> ps
  | _ => ps
  end.

Definition setPromises (ps : list PromiseState) (s : EnvoyAPI) : EnvoyAPI :=
  {| cacheMap := cacheMap s; promises := ps; batch_keys := batch_keys s;
     batch_callbacks := batch_callbacks s; inflight := inflight s;
     requests := requests s |}.

Definition setInflight (bs : list Batch) (s : EnvoyAPI) : EnvoyAPI :=
  {| cacheMap := cacheMap s; promises := promises s; batch_keys := batch_keys s;
     batch_callbacks := batch_callbacks s; inflight := bs;
     requests := requests s |}.

(** [dispatchBatch], run by the job scheduled when the batch was created:
    the batch function maps the keys to one [axios.get] each, in order. *)
Definition dispatchBatch (s : EnvoyAPI) : EnvoyAPI :=
  match batch_keys s with
  | [] => s
  | _ :: _ =>
      {| cacheMap := cacheMap s;
         promises := promises s;
         batch_keys := [];
         batch_callbacks := [];
         inflight := inflight s ++
           [ {| b_keys := batch_keys s;
                b_callbacks := batch_callbacks s;
                b_slots := replicate (length (batch_keys s)) Waiting;
                b_settled := false |} ];
         requests := requests s ++ (fetchRequest <$> batch_keys s) |}
  end.

(** [failedDispatch]: every key of the batch is cleared from the cache and
    every promise of the batch is rejected with the error. *)
Definition clearAll (keys : list EnvoyWebDataLoaderKey) (s : EnvoyAPI) : EnvoyAPI :=
  foldl (fun acc key => clear key acc) s keys.

Definition rejectAll (callbacks : list nat) (error : JSError)
  (ps : list PromiseState) : list PromiseState :=
  foldl (fun acc p => settle p (Rejected error) acc) ps callbacks.

Definition failedDispatch (b : Batch) (error : JSError) (s : EnvoyAPI) : EnvoyAPI :=
  let s1 := clearAll (b_keys b) s in
  setPromises (rejectAll (b_callbacks b) error (promises s1)) s1.

(** The [then] branch of the dispatch: each promise of the batch is resolved
    with the value at its position. *)
Definition slotValue (sl : Slot) : option value :=
  match sl with Done v => Some v | _ => None end.

Fixpoint resolveAll (callbacks : list nat) (values : list value)
  (ps : list PromiseState) : list PromiseState :=
  match callbacks, values with
  | p :: callbacks', v :: values' => resolveAll callbacks' values' (settle p (Fulfilled v) ps)
  | _, _ => ps
  end.

(** *** The response interceptor (the absorption step) *)

(** The callback of the [forEach]: prime under the model's own type and id
    and, when [TYPE_ALIASES] has an entry for the type, under that entry. *)
Definition primeModel (model : value) (s : EnvoyAPI) : Completion unit * EnvoyAPI :=
  match getProp model "type", getProp model "id" with
  | Normal ty, Normal i =>
      let s1 := prime (mkKey ty i VUndefined) model s in
      let alias := TYPE_ALIASES_get ty in
      (Normal tt,
       if truthy alias then prime (mkKey alias i VUndefined) model s1 else s1)
  | _, _ => (Throw TypeError, s)
  end.

Fixpoint forEachModel (models : list value) (s : EnvoyAPI)
  : Completion unit * EnvoyAPI :=
  match models with
  | [] => (Normal tt, s)
  | model :: rest =>
      match primeModel model s with
      | (Normal _, s1) => forEachModel rest s1
      | (Throw e, s1) => (Throw e, s1)
      end
  end.

(** [(included || []).concat(modelOrModels)]: an array argument is spread, any
    other value is appended as one element.  A truthy [included] that is not
    an array has no usable [concat]/[forEach]: the call throws. *)
Definition modelsOf (modelOrModels included : value) : Completion (list value) :=
  match (if truthy included then included else VArr []) with
  | VArr items =>
      Normal (match modelOrModels with
              | VArr models => items ++ models
              | model => items ++ [model]
              end)
  | _ => Throw TypeError
  end.

(** The fulfilment handler given to [axios.interceptors.response.use]. *)
Definition interceptResponse (response : AxiosResponse) (s : EnvoyAPI)
  : Completion AxiosResponse * EnvoyAPI :=
  match getProp (resp_data response) "data",
        getProp (resp_data response) "included" with
  | Normal modelOrModels, Normal included =>
      match modelsOf modelOrModels included with
      | Normal models =>
          match forEachModel models s with
          | (Normal _, s') => (Normal response, s')
          | (Throw e, s') => (Throw e, s')
          end
      | Throw e => (Throw e, s)
      end
  | _, _ => (Throw TypeError, s)
  end.

(** What a call of [this.axios] settles to once the transport has answered:
    a success runs the interceptor, a failure passes through
    [(error) => Promise.reject(error)]. *)
Definition axiosSettle (r : AxiosOutcome) (s : EnvoyAPI)
  : Completion AxiosResponse * EnvoyAPI :=
  match r with
  | Success response => interceptResponse response s
  | Failure error => (Throw error, s)
  end.

Definition logRequest (r : AxiosRequest) (s : EnvoyAPI) : EnvoyAPI :=
  {| cacheMap := cacheMap s; promises := promises s; batch_keys := batch_keys s;
     batch_callbacks := batch_callbacks s; inflight := inflight s;
     requests := requests s ++ [r] |}.

(** A call of [this.axios] outside the loader, with what the transport
    answers to it. *)
Definition axiosCall (request : AxiosRequest) (r : AxiosOutcome) (s : EnvoyAPI)
  : Completion AxiosResponse * EnvoyAPI :=
  axiosSettle r (logRequest request s).

(** *** The answer to one fetch of a dispatched batch *)

Definition setBatch (b : nat) (B : Batch) (s : EnvoyAPI) : EnvoyAPI :=
  setInflight (<[b := B]> (inflight s)) s.

Definition withSlots (B : Batch) (slots : list Slot) (settled : bool) : Batch :=
  {| b_keys := b_keys B; b_callbacks := b_callbacks B;
     b_slots := slots; b_settled := settled |}.

(** The per-key function of the batch function:
    [const { data } = await this.axios.get(...); return data.data;] *)
Definition fetchResult (answer : Completion AxiosResponse) : Completion value :=
  match answer with
  | Normal response => getProp (resp_data response) "data"
  | Throw e => Throw e
  end.

(** One per-key function of batch [b] has completed.  [Promise.all] resolves
    when every one has a value, and then each promise of the batch is
    resolved with its value; it rejects at the first one that fails, and
    then [failedDispatch] runs.  Completions that come after the batch has
    settled are ignored. *)
Definition deliver (b i : nat) (B : Batch) (result : Completion value)
  (s : EnvoyAPI) : EnvoyAPI :=
  match result with
  | Normal v =>
      let slots := <[i := Done v]> (b_slots B) in
      if b_settled B then setBatch b (withSlots B slots true) s
      else match mapM slotValue slots with
           | Some values =>
               setBatch b (withSlots B slots true)
                 (setPromises (resolveAll (b_callbacks B) values (promises s)) s)
           | None => setBatch b (withSlots B slots false) s
           end
  | Throw e =>
      let slots := <[i := Failed]> (b_slots B) in
      if b_settled B then setBatch b (withSlots B slots true) s
      else setBatch b (withSlots B slots true) (failedDispatch B e s)
  end.

(** The transport answers the [i]-th fetch of batch [b]. *)
Definition respond (b i : nat) (r : AxiosOutcome) (s : EnvoyAPI) : EnvoyAPI :=
  match inflight s !! b with
  | None => s
  | Some B =>
      match b_slots B !! i with
      | Some Waiting =>
          let '(answer, s1) := axiosSettle r s in
          deliver b i B (fetchResult answer) s1
      | _ => s
      end
  end.

(** *** Executions *)

(** What can happen to an [EnvoyAPI] instance: a caller loads or primes a
    key, the scheduled dispatch runs, the transport answers a fetch, or a
    direct call (one that does not go through the loader) completes. *)
Inductive Event : Type :=
| ELoad (key : EnvoyWebDataLoaderKey)
| EPrime (key : EnvoyWebDataLoaderKey) (v : value)
| ETick
| ERespond (b i : nat) (r : AxiosOutcome)
| ECall (request : AxiosRequest) (r : AxiosOutcome).

Definition step (e : Event) (s : EnvoyAPI) : EnvoyAPI :=
  match e with
  | ELoad key => (load key s).2
  | EPrime key v => prime key v s
  | ETick => dispatchBatch s
  | ERespond b i r => respond b i r s
  | ECall request r => (axiosCall request r s).2
  end.

Definition run (evs : list Event) (s : EnvoyAPI) : EnvoyAPI :=
  foldl (fun acc e => step e acc) s evs.

Definition reachable (s : EnvoyAPI) : Prop :=
  ∃ evs, s = run evs newEnvoyAPI.

(** The keys for which a fetch has been issued, in order. *)
Definition fetched (s : EnvoyAPI) : list EnvoyWebDataLoaderKey :=
  concat (b_keys <$> inflight s).

(** Loading a list of keys one after the other. *)
Fixpoint loadAll (keys : list EnvoyWebDataLoaderKey) (s : EnvoyAPI)
  : list nat * EnvoyAPI :=
  match keys with
  | [] => ([], s)
  | key :: rest =>
      let '(p, s1) := load key s in
      let '(ps, s2) := loadAll rest s1 in
      (p :: ps, s2)
  end.

(** ** The storage pipeline *)

(** The request [storagePipeline] builds: [{ commands }], with [install_id]
    added under [if (installId)]. *)
Definition storageRequest (commands : list value) (installId : value) : AxiosRequest :=
  {| req_method := "POST";
     req_url := "/api/v2/plugin-services/storage";
     req_params := VUndefined;
     req_data :=
       VObj (("commands", VArr commands) ::
             (if truthy installId then [("install_id", installId)] else [])) |}.

(** [EnvoyAPI.storagePipeline]; [transport] is what the server answers to a
    request.  The call goes through [this.axios], hence through the response
    interceptor; the method returns [data.data] of what axios resolves to. *)
Definition storagePipeline (commands : list value) (installId : value)
  (transport : AxiosRequest → AxiosOutcome) (s : EnvoyAPI)
  : Completion value * EnvoyAPI :=
  let request := storageRequest commands installId in
  match axiosCall request (transport request) s with
  | (Normal response, s1) => (getProp (resp_data response) "data", s1)
  | (Throw e, s1) => (Throw e, s1)
  end.

(** [const [result] = ...]: the first element an iteration of the value
    yields, [undefined] when it yields none; a value that is not iterable
    throws.  (A string iterates by character.) *)
Definition firstElement (v : value) : Completion value :=
  match v with
  | VArr [] => Normal VUndefined
  | VArr (x :: _) => Normal x
  | VStr EmptyString => Normal VUndefined
  | VStr (String c _) => Normal (VStr (String c EmptyString))
  | _ => Throw TypeError
  end.

(** Writing a property of an object literal: an existing property keeps its
    place and takes the new value, a new one goes last. *)
Fixpoint setField (k : string) (v : value) (fs : list (string * value))
  : list (string * value) :=
  match fs with
  | [] => [(k, v)]
  | (k', v') :: fs' =>
      if String.eqb k k' then (k', v) :: fs' else (k', v') :: setField k v fs'
  end.

(** [{ ...base, ...options }] *)
Definition spread (base options : list (string * value)) : list (string * value) :=
  foldl (fun acc kv => setField kv.1 kv.2 acc) base options.

Module Pipeline.

(** A pipeline object: [installId] ([undefined] when not given) and the
    [commands] array.  Pipelines are objects in a heap, addressed by
    reference, since the builder methods mutate [this] and return it. *)
Record EnvoyPluginStoragePipeline : Type := mk {
  installId : value;
  commands : list value;
}.

Abbreviation Heap := (list EnvoyPluginStoragePipeline).

(** [new EnvoyPluginStoragePipeline(api, installId)] *)
Definition new (installId : value) (h : Heap) : nat * Heap :=
  (length h, h ++ [ {| installId := installId; commands := [] |} ]).

(** [this.commands.push(command); return this;] *)
Definition addCommand (this : nat) (command : value) (h : Heap) : nat * Heap :=
  (this,
   alter (fun p => {| installId := installId p;
                      commands := commands p ++ [command] |}) this h).

Definition get (this : nat) (key : string) : Heap → nat * Heap :=
  addCommand this (VObj [("action", VStr "get"); ("key", VStr key)]).

Definition set (this : nat) (key : string) (v : value) : Heap → nat * Heap :=
  addCommand this (VObj [("action", VStr "set"); ("key", VStr key); ("value", v)]).

(** [options] defaults to [{}]. *)
Definition setUnique (this : nat) (key : string)
  (options : option (list (string * value))) : Heap → nat * Heap :=
  addCommand this
    (VObj (spread [("action", VStr "set_unique"); ("key", VStr key)]
             (default [] options))).

Definition setUniqueNum (this : nat) (key : string)
  (options : option (list (string * value))) : Heap → nat * Heap :=
  addCommand this
    (VObj (spread [("action", VStr "set_unique_num"); ("key", VStr key)]
             (default [] options))).

Definition unset (this : nat) (key : string) : Heap → nat * Heap :=
  addCommand this (VObj [("action", VStr "unset"); ("key", VStr key)]).

(** [return this.api.storagePipeline(this.commands, this.installId);] *)
Definition execute (this : nat) (transport : AxiosRequest → AxiosOutcome)
  (h : Heap) (api : EnvoyAPI) : Completion value * EnvoyAPI :=
  match h !! this with
  | Some p => storagePipeline (commands p) (installId p) transport api
  | None => (Throw TypeError, api) (* no object at [this]: not a pipeline *)
  end.

(** [const [result] = await this.execute(); return result;] *)
Definition executeSingle (this : nat) (transport : AxiosRequest → AxiosOutcome)
  (h : Heap) (api : EnvoyAPI) : Completion value * EnvoyAPI :=
  match execute this transport h api with
  | (Normal results, api') => (firstElement results, api')
  | (Throw e, api') => (Throw e, api')
  end.

(** The builder calls, to speak of sequences of them. *)
Inductive Call : Type :=
| CAddCommand (command : value)
| CGet (key : string)
| CSet (key : string) (v : value)
| CSetUnique (key : string) (options : option (list (string * value)))
| CSetUniqueNum (key : string) (options : option (list (string * value)))
| CUnset (key : string).

Definition call (c : Call) (this : nat) : Heap → nat * Heap :=
  match c with
  | CAddCommand command => addCommand this command
  | CGet key => get this key
  | CSet key v => set this key v
  | CSetUnique key options => setUnique this key options
  | CSetUniqueNum key options => setUniqueNum this key options
  | CUnset key => unset this key
  end.

(** The command a builder call pushes. *)
Definition commandOf (c : Call) : value :=
  match c with
  | CAddCommand command => command
  | CGet key => VObj [("action", VStr "get"); ("key", VStr key)]
  | CSet key v =>
      VObj [("action", VStr "set"); ("key", VStr key); ("value", v)]
  | CSetUnique key options =>
      VObj (spread [("action", VStr "set_unique"); ("key", VStr key)]
              (default [] options))
  | CSetUniqueNum key options =>
      VObj (spread [("action", VStr "set_unique_num"); ("key", VStr key)]
              (default [] options))
  | CUnset key => VObj [("action", VStr "unset"); ("key", VStr key)]
  end.

(** A chain [p.c1(...).c2(...)...]: each call is made on what the previous
    one returned. *)
Fixpoint chain (cs : list Call) (this : nat) (h : Heap) : nat * Heap :=
  match cs with
  | [] => (this, h)
  | c :: cs' => let '(r, h') := call c this h in chain cs' r h'
  end.

End Pipeline.

(** ** Notions used in the statements *)

(** A model that is neither [undefined] nor [null] (its properties can be
    read). *)
Definition readable (model : value) : Prop :=
  match model with VUndefined | VNull => False | _ => True end.

(** A response the interceptor can absorb: its body has a [data] that is a
    resource or a list of resources and an [included] that is absent or a
    list of resources; [models] is the list the interceptor walks,
    [included] first. *)
Definition absorbable (response : AxiosResponse) (models : list value) : Prop :=
  ∃ modelOrModels included,
    getProp (resp_data response) "data" = Normal modelOrModels ∧
    getProp (resp_data response) "included" = Normal included ∧
    modelsOf modelOrModels included = Normal models ∧
    Forall readable models.

(** A batch owns its keys: the cache maps each key to the batch's promise
    for it, and that promise is pending. *)
Definition owns (keys : list EnvoyWebDataLoaderKey) (callbacks : list nat)
  (s : EnvoyAPI) : Prop :=
  ∀ i key p, keys !! i = Some key → callbacks !! i = Some p →
    cacheMap s !! cacheKeyFn key = Some p ∧ promises s !! p = Some Pending.

(** The invariant of the loader: the batch being collected and every
    dispatched batch that has not settled own their keys; a promise belongs
    to one position of one batch. *)
Record wf (s : EnvoyAPI) : Prop := mkWf {
  wf_len : length (batch_keys s) = length (batch_callbacks s);
  wf_nodup : NoDup (batch_callbacks s);
  wf_cur : owns (batch_keys s) (batch_callbacks s) s;
  wf_batch : ∀ b B, inflight s !! b = Some B →
    length (b_keys B) = length (b_callbacks B) ∧
    length (b_slots B) = length (b_keys B) ∧
    NoDup (b_callbacks B) ∧
    (∀ p, p ∈ b_callbacks B → p < length (promises s) ∧ p ∉ batch_callbacks s) ∧
    (b_settled B = false → owns (b_keys B) (b_callbacks B) s);
  wf_disj : ∀ b B b' B' p,
    inflight s !! b = Some B → inflight s !! b' = Some B' →
    p ∈ b_callbacks B → p ∈ b_callbacks B' → b = b';
}.

(** [s'] differs from [s] by cache entries and promises added. *)
Definition grows (s s' : EnvoyAPI) : Prop :=
  (∀ c p, cacheMap s !! c = Some p → cacheMap s' !! c = Some p) ∧
  (∀ p st, promises s !! p = Some st → promises s' !! p = Some st).

(** [s'] has the batches of [s]. *)
Definition sameBatches (s s' : EnvoyAPI) : Prop :=
  batch_keys s' = batch_keys s ∧ batch_callbacks s' = batch_callbacks s ∧
  inflight s' = inflight s.





(** ** The methods of [EnvoyAPI] *)

Definition optional (o : option string) : value :=
  match o with
  | Some x => VStr x
  | None => VUndefined
  end.

(** [this.dataLoader.load({ type, id, include })] *)
Definition getResource (type id : string) (include : option string)
  : EnvoyAPI → nat * EnvoyAPI :=
  load (mkKey (VStr type) (VStr id) (optional include)).

Definition getAgreementPage : string → option string → EnvoyAPI → nat * EnvoyAPI :=
  getResource "agreement-pages".

Definition getAgreement : string → option string → EnvoyAPI → nat * EnvoyAPI :=
  getResource "agreements".

Definition getCompany : string → option string → EnvoyAPI → nat * EnvoyAPI :=
  getResource "companies".


Definition getFlow : string → option string → EnvoyAPI → nat * EnvoyAPI :=
  getResource "flows".

Definition getLocation : string → option string → EnvoyAPI → nat * EnvoyAPI :=
  getResource "locations".

Definition getSignInFieldPage : string → option string → EnvoyAPI → nat * EnvoyAPI :=
  getResource "sign-in-field-pages".

Definition getSignInField : string → option string → EnvoyAPI → nat * EnvoyAPI :=
  getResource "sign-in-fields".

(** The types the accessors load. *)
Definition accessorTypes : list string :=
  ["agreement-pages"; "agreements"; "companies"; "employees"; "flows";
   "locations"; "sign-in-field-pages"; "sign-in-fields"].

(** [const { data } = await this.axios(request); return data.data;], with
    what the transport answers to the request. *)
Definition getData (request : AxiosRequest) (r : AxiosOutcome) (s : EnvoyAPI)
  : Completion value * EnvoyAPI :=
  match axiosCall request r s with
  | (Normal response, s1) => (getProp (resp_data response) "data", s1)
  | (Throw e, s1) => (Throw e, s1)
  end.

(** [await this.axios(request);] in a method that returns nothing. *)
Definition sendOnly (request : AxiosRequest) (r : AxiosOutcome) (s : EnvoyAPI)
  : Completion value * EnvoyAPI :=
  match axiosCall request r s with
  | (Normal _, s1) => (Normal VUndefined, s1)
  | (Throw e, s1) => (Throw e, s1)
  end.

Definition getRequest (url : string) (params : value) : AxiosRequest :=
  {| req_method := "GET"; req_url := url; req_params := params;
     req_data := VUndefined |}.

Definition dataRequest (method url : string) (data : value) : AxiosRequest :=
  {| req_method := method; req_url := url; req_params := VUndefined;
     req_data := data |}.


Definition getFlows (params : value) : AxiosOutcome → EnvoyAPI → Completion value * EnvoyAPI :=
  getData (getRequest "/api/v3/flows" params).

Definition getLocations (params : value) : AxiosOutcome → EnvoyAPI → Completion value * EnvoyAPI :=
  getData (getRequest "/api/v3/locations" params).

Definition getSignInFields (signInFieldPageId : string)
  : AxiosOutcome → EnvoyAPI → Completion value * EnvoyAPI :=
  getData (getRequest
             ("/api/v3/sign-in-field-pages/" +:+ signInFieldPageId +:+ "/sign-in-fields")
             VUndefined).

Definition getInvites (params : value) : AxiosOutcome → EnvoyAPI → Completion value * EnvoyAPI :=
  getData (getRequest "/api/v3/invites" params).

Definition me : AxiosOutcome → EnvoyAPI → Completion value * EnvoyAPI :=
  getData (getRequest "/api/v2/users/me" VUndefined).



Definition createInvite (invite : list (string * value))
  : AxiosOutcome → EnvoyAPI → Completion value * EnvoyAPI :=
  getData (dataRequest "POST" "/api/v3/invites" (VObj [("data", VObj invite)])).

(** [{ ...invite, id: inviteId }] *)
Definition inviteWithId (invite : list (string * value)) (inviteId : string)
  : list (string * value) :=
  setField "id" (VStr inviteId) (spread [] invite).

Definition updateInvite (inviteId : string) (invite : list (string * value))
  : AxiosOutcome → EnvoyAPI → Completion value * EnvoyAPI :=
  getData (dataRequest "PUT" ("/api/v3/invites/" +:+ inviteId)
             (VObj [("data", VObj (inviteWithId invite inviteId))])).

Definition partialUpdateInvite (inviteId : string) (invite : list (string * value))
  : AxiosOutcome → EnvoyAPI → Completion value * EnvoyAPI :=
  getData (dataRequest "PATCH" ("/api/v3/invites/" +:+ inviteId)
             (VObj [("data", VObj (inviteWithId invite inviteId))])).

Definition removeInvite (inviteId : string)
  : AxiosOutcome → EnvoyAPI → Completion value * EnvoyAPI :=
  sendOnly (dataRequest "DELETE" ("/api/v3/invites/" +:+ inviteId) VUndefined).

Definition updateJob (jobId : string) (update : value)
  : AxiosOutcome → EnvoyAPI → Completion value * EnvoyAPI :=
  sendOnly (dataRequest "PATCH" ("/api/v2/plugin-services/jobs/" +:+ jobId) update).

Definition getPluginInstallConfig (installId : string)
  : AxiosOutcome → EnvoyAPI → Completion value * EnvoyAPI :=
  getData (getRequest
             ("/api/v2/plugin-services/installs/" +:+ installId +:+ "/config")
             VUndefined).

Definition setPluginInstallConfig (installId : string) (config : value)
  : AxiosOutcome → EnvoyAPI → Completion value * EnvoyAPI :=
  sendOnly (dataRequest "PUT"
              ("/api/v2/plugin-services/installs/" +:+ installId +:+ "/config")
              config).

(** [params] defaults to [{}]. *)
Definition createNotification (installId : string) (params : option value)
  : AxiosOutcome → EnvoyAPI → Completion value * EnvoyAPI :=
  sendOnly (dataRequest "POST"
              ("/api/v2/plugin-services/installs/" +:+ installId +:+ "/notifications")
              (default (VObj []) params)).

(** ** The signature verifier *)

Module EnvoySignatureVerifier.

(** [EnvoySignatureVerifierOptions]; [secret] is [None] when it is
    [undefined] (the environment variable is not set). *)
Record Options : Type := mkOptions {
  algorithm : string;
  encoding : string;
  secret : option string;
  header : string;
}.

(** The options object a caller passes: a property may be absent ([None]);
    a [secret] that is present may hold [undefined]. *)
Record Given : Type := mkGiven {
  g_algorithm : option string;
  g_encoding : option string;
  g_secret : option (option string);
  g_header : option string;
}.

(** [defaultOptions]; [envoyClientSecret] is the constant read from the
    environment. *)
Definition defaultOptions (envoyClientSecret : option string) : Options :=
  {| algorithm := "sha256"; encoding := "base64";
     secret := envoyClientSecret; header := "x-envoy-signature" |}.

(** [{ ...defaultOptions, ...options }] *)
Definition merge (d : Options) (g : Given) : Options :=
  {| algorithm := default (algorithm d) (g_algorithm g);
     encoding := default (encoding d) (g_encoding g);
     secret := default (secret d) (g_secret g);
     header := default (header d) (g_header g) |}.

Definition hasSecret (o : Options) : bool :=
  match secret o with
  | Some key => negb (String.eqb key "")
  | None => false
  end.

(** The constructor: [options] defaults to [defaultOptions]; it throws an
    [Error] with the message on the left when there is no secret. *)
Definition new (envoyClientSecret : option string) (options : option Given)
  : string + Options :=
  let merged :=
    match options with
    | Some g => merge (defaultOptions envoyClientSecret) g
    | None => defaultOptions envoyClientSecret
    end in
  if hasSecret merged then inr merged
  else inl "No client secret found in the ENVOY_CLIENT_SECRET environment variable.".

Inductive Outcome : Type :=
| Returns (b : bool)
| Throws (code : string).

(** [crypto.timingSafeEqual] on the bytes of two strings: it throws when the
    lengths differ. *)
Definition timingSafeEqual (a b : string) : Outcome :=
  if Nat.eqb (String.length a) (String.length b) then Returns (String.eqb a b)
  else Throws "ERR_CRYPTO_TIMING_SAFE_EQUAL_LENGTH".

(** [verify(req, rawBody)].  [hmac algorithm key data encoding] stands for
    [crypto.createHmac(algorithm, key).update(data).digest(encoding)]: the
    digest, or on the left the code of the error [crypto] throws.  [headers]
    are the request's headers. *)
Definition verify (hmac : string → string → string → string → string + string)
  (options : Options) (headers : gmap string string) (rawBody : string) : Outcome :=
  match headers !! header options with
  | None => Returns false
  | Some receivedDigest =>
      if String.eqb receivedDigest "" then Returns false
      else
        match secret options with
        | None => Throws "ERR_INVALID_ARG_TYPE"
        | Some key =>
            match hmac (algorithm options) key rawBody (encoding options) with
            | inl code => Throws code
            | inr digest => timingSafeEqual receivedDigest digest
            end
        end
  end.

End EnvoySignatureVerifier.


Fixpoint hasUnderscore (s : string) : bool :=
  match s with
  | EmptyString => false
  | String c rest => String.eqb (String c EmptyString) "_" || hasUnderscore rest
  end.

(** * Properties *)

(** ** Cache keys, [load] and [prime] *)

Lemma cacheKeyFn_include ty i inc1 inc2 :
  cacheKeyFn (mkKey ty i inc1) = cacheKeyFn (mkKey ty i inc2).
Proof. reflexivity. Qed.

Lemma load_hit key s p :
  cacheMap s !! cacheKeyFn key = Some p → load key s = (p, s).
Proof. intros H. unfold load. by rewrite H. Qed.

Lemma load_caches key s :
  cacheMap (load key s).2 !! cacheKeyFn key = Some (load key s).1.
Proof.
  unfold load. destruct (cacheMap s !! cacheKeyFn key) eqn:E; simpl; [done|].
  apply lookup_insert_eq.
Qed.

Lemma load_again key key' s :
  cacheKeyFn key' = cacheKeyFn key →
  load key' (load key s).2 = ((load key s).1, (load key s).2).
Proof. intros E. apply load_hit. rewrite E. apply load_caches. Qed.

Lemma prime_hit key v s :
  is_Some (cacheMap s !! cacheKeyFn key) → prime key v s = s.
Proof. intros [p H]. unfold prime. by rewrite H. Qed.

Lemma prime_cached key v s :
  is_Some (cacheMap (prime key v s) !! cacheKeyFn key).
Proof.
  unfold prime. destruct (cacheMap s !! cacheKeyFn key) eqn:E; simpl.
  - by rewrite E.
  - rewrite lookup_insert_eq. by eexists.
Qed.

Lemma prime_cache_mono key v s c p :
  cacheMap s !! c = Some p → cacheMap (prime key v s) !! c = Some p.
Proof.
  intros H. unfold prime. destruct (cacheMap s !! cacheKeyFn key) eqn:E; simpl; [done|].
  rewrite lookup_insert_ne; [done|]. congruence.
Qed.

Lemma prime_promises_mono key v s p st :
  promises s !! p = Some st → promises (prime key v s) !! p = Some st.
Proof.
  intros H. unfold prime. destruct (cacheMap s !! cacheKeyFn key); simpl; [done|].
  by apply lookup_app_l_Some.
Qed.

Lemma prime_frame key v s :
  batch_keys (prime key v s) = batch_keys s ∧
  batch_callbacks (prime key v s) = batch_callbacks s ∧
  inflight (prime key v s) = inflight s ∧
  requests (prime key v s) = requests s.
Proof. unfold prime. by destruct (cacheMap s !! cacheKeyFn key). Qed.

(** What a [prime] adds to the cache: nothing, or a fulfilled promise holding
    the primed value under the key. *)
Lemma prime_new_entry key v s c p :
  cacheMap (prime key v s) !! c = Some p →
  cacheMap s !! c = Some p ∨
  (cacheMap s !! c = None ∧ c = cacheKeyFn key ∧
   promises (prime key v s) !! p = Some (Fulfilled v)).
Proof.
  unfold prime. destruct (cacheMap s !! cacheKeyFn key) eqn:E; simpl; [by left|].
  destruct (decide (cacheKeyFn key = c)) as [<-|Hne].
  - rewrite lookup_insert_eq. intros [= <-]. right. split_and!; [done..|].
    rewrite lookup_app_r; [|done]. by rewrite Nat.sub_diag.
  - rewrite lookup_insert_ne; [|done]. by left.
Qed.

(** ** The interceptor *)

Lemma primeModel_frame model s :
  batch_keys (primeModel model s).2 = batch_keys s ∧
  batch_callbacks (primeModel model s).2 = batch_callbacks s ∧
  inflight (primeModel model s).2 = inflight s ∧
  requests (primeModel model s).2 = requests s.
Proof.
  unfold primeModel.
  destruct (getProp model "type") as [ty|], (getProp model "id") as [i|]; simpl; try done.
  destruct (truthy (TYPE_ALIASES_get ty)).
  - destruct (prime_frame (mkKey (TYPE_ALIASES_get ty) i VUndefined) model
               (prime (mkKey ty i VUndefined) model s)) as (-> & -> & -> & ->).
    apply prime_frame.
  - apply prime_frame.
Qed.

Lemma primeModel_cache_mono model s c p :
  cacheMap s !! c = Some p → cacheMap (primeModel model s).2 !! c = Some p.
Proof.
  intros H. unfold primeModel.
  destruct (getProp model "type") as [ty|], (getProp model "id") as [i|]; simpl; try done.
  destruct (truthy (TYPE_ALIASES_get ty)); eauto using prime_cache_mono.
Qed.

Lemma primeModel_promises_mono model s p st :
  promises s !! p = Some st → promises (primeModel model s).2 !! p = Some st.
Proof.
  intros H. unfold primeModel.
  destruct (getProp model "type") as [ty|], (getProp model "id") as [i|]; simpl; try done.
  destruct (truthy (TYPE_ALIASES_get ty)); eauto using prime_promises_mono.
Qed.


Lemma forEachModel_frame models s :
  batch_keys (forEachModel models s).2 = batch_keys s ∧
  batch_callbacks (forEachModel models s).2 = batch_callbacks s ∧
  inflight (forEachModel models s).2 = inflight s ∧
  requests (forEachModel models s).2 = requests s.
Proof.
  revert s. induction models as [|model rest IH]; intros s; simpl; [done|].
  pose proof (primeModel_frame model s) as Hf.
  destruct (primeModel model s) as [[[]|e] s1]; simpl in *; [|done].
  destruct (IH s1) as (-> & -> & -> & ->). done.
Qed.

Lemma forEachModel_cache_mono models s c p :
  cacheMap s !! c = Some p → cacheMap (forEachModel models s).2 !! c = Some p.
Proof.
  revert s. induction models as [|model rest IH]; intros s H; simpl; [done|].
  pose proof (primeModel_cache_mono model s c p H) as H1.
  destruct (primeModel model s) as [[[]|e] s1]; simpl in *; [|done].
  by apply IH.
Qed.

Lemma forEachModel_promises_mono models s p st :
  promises s !! p = Some st → promises (forEachModel models s).2 !! p = Some st.
Proof.
  revert s. induction models as [|model rest IH]; intros s H; simpl; [done|].
  pose proof (primeModel_promises_mono model s p st H) as H1.
  destruct (primeModel model s) as [[[]|e] s1]; simpl in *; [|done].
  by apply IH.
Qed.


Lemma readable_getProp model k : readable model → ∃ v, getProp model k = Normal v.
Proof. destruct model; simpl; try done; eauto. Qed.

Lemma primeModel_normal model s :
  readable model → (primeModel model s).1 = Normal tt.
Proof.
  intros Hr. unfold primeModel.
  destruct (readable_getProp model "type" Hr) as [ty ->].
  destruct (readable_getProp model "id" Hr) as [i ->]. done.
Qed.

Lemma forEachModel_normal models s :
  Forall readable models → (forEachModel models s).1 = Normal tt.
Proof.
  revert s. induction models as [|model rest IH]; intros s Hall; simpl; [done|].
  inversion Hall as [|?? Hr Hrest]; subst.
  pose proof (primeModel_normal model s Hr) as Hn.
  destruct (primeModel model s) as [[[]|e] s1]; simpl in *; [|done].
  by apply IH.
Qed.

(** After the absorption of readable models, each is cached under its own
    type and id, and under the [TYPE_ALIASES] entry of its type if any. *)
Lemma primeModel_cached model s ty i :
  getProp model "type" = Normal ty → getProp model "id" = Normal i →
  is_Some (cacheMap (primeModel model s).2 !! cacheKeyFn (mkKey ty i VUndefined)) ∧
  (truthy (TYPE_ALIASES_get ty) = true →
   is_Some (cacheMap (primeModel model s).2
              !! cacheKeyFn (mkKey (TYPE_ALIASES_get ty) i VUndefined))).
Proof.
  intros Ht Hi. unfold primeModel. rewrite Ht, Hi. simpl.
  destruct (truthy (TYPE_ALIASES_get ty)) eqn:Ha.
  - split; [|intros _; apply prime_cached].
    destruct (prime_cached (mkKey ty i VUndefined) model s) as [p Hp].
    exists p. by apply prime_cache_mono.
  - split; [apply prime_cached|done].
Qed.

Lemma forEachModel_cached models s model ty i :
  Forall readable models → model ∈ models →
  getProp model "type" = Normal ty → getProp model "id" = Normal i →
  is_Some (cacheMap (forEachModel models s).2 !! cacheKeyFn (mkKey ty i VUndefined)) ∧
  (truthy (TYPE_ALIASES_get ty) = true →
   is_Some (cacheMap (forEachModel models s).2
              !! cacheKeyFn (mkKey (TYPE_ALIASES_get ty) i VUndefined))).
Proof.
  revert s. induction models as [|m rest IH]; intros s Hall Hin Ht Hi.
  { by apply elem_of_nil in Hin. }
  inversion Hall as [|?? Hr Hrest]; subst. simpl.
  pose proof (primeModel_normal m s Hr) as Hn.
  pose proof (primeModel_cached m s) as Hc.
  destruct (primeModel m s) as [[[]|e] s1]; simpl in *; [|done].
  apply elem_of_cons in Hin as [->|Hin].
  - destruct (Hc ty i Ht Hi) as [[p Hp] Hal]. split.
    + exists p. by apply forEachModel_cache_mono.
    + intros Ha. destruct (Hal Ha) as [q Hq]. exists q. by apply forEachModel_cache_mono.
  - by apply IH.
Qed.

(** ** Promise settlement *)

Lemma length_settle p st ps : length (settle p st ps) = length ps.
Proof. unfold settle. destruct (ps !! p) as [[]|]; by rewrite ?length_insert. Qed.

Lemma settle_lookup_ne p q st ps : p ≠ q → settle p st ps !! q = ps !! q.
Proof.
  intros Hne. unfold settle. destruct (ps !! p) as [[]|]; try done.
  by apply list_lookup_insert_ne.
Qed.

Lemma settle_pending p st ps :
  ps !! p = Some Pending → settle p st ps !! p = Some st.
Proof.
  intros H. unfold settle. rewrite H. apply list_lookup_insert_eq.
  by eapply lookup_lt_Some.
Qed.

Lemma settle_settled p q st st' ps :
  ps !! q = Some st' → st' ≠ Pending → settle p st ps !! q = Some st'.
Proof.
  intros H Hne. destruct (decide (p = q)) as [->|Hpq].
  - unfold settle. rewrite H. by destruct st'.
  - by rewrite settle_lookup_ne.
Qed.

Lemma length_rejectAll cbs e ps : length (rejectAll cbs e ps) = length ps.
Proof.
  revert ps. induction cbs as [|p cbs IH]; intros ps; simpl; [done|].
  unfold rejectAll in *. simpl. by rewrite IH, length_settle.
Qed.

Lemma rejectAll_other cbs e ps q : q ∉ cbs → rejectAll cbs e ps !! q = ps !! q.
Proof.
  revert ps. induction cbs as [|p cbs IH]; intros ps Hq; [done|].
  apply not_elem_of_cons in Hq as [Hne Hq]. unfold rejectAll in *. simpl.
  rewrite IH; [|done]. by apply settle_lookup_ne.
Qed.

Lemma rejectAll_settled cbs e ps q st :
  ps !! q = Some st → st ≠ Pending → rejectAll cbs e ps !! q = Some st.
Proof.
  revert ps. induction cbs as [|p cbs IH]; intros ps H Hne; [done|].
  unfold rejectAll in *. simpl. apply IH; [|done]. by apply settle_settled.
Qed.

Lemma rejectAll_rejects cbs e ps q :
  q ∈ cbs → ps !! q = Some Pending → rejectAll cbs e ps !! q = Some (Rejected e).
Proof.
  revert ps. induction cbs as [|p cbs IH]; intros ps Hq H.
  { by apply elem_of_nil in Hq. }
  unfold rejectAll in *. simpl. destruct (decide (p = q)) as [->|Hpq].
  - apply (rejectAll_settled cbs e); [|done]. by apply settle_pending.
  - apply elem_of_cons in Hq as [->|Hq]; [done|]. apply IH; [done|].
    by rewrite settle_lookup_ne.
Qed.

Lemma length_resolveAll cbs vs ps : length (resolveAll cbs vs ps) = length ps.
Proof.
  revert vs ps. induction cbs as [|p cbs IH]; intros [|v vs] ps; simpl; try done.
  by rewrite IH, length_settle.
Qed.

Lemma resolveAll_other cbs vs ps q : q ∉ cbs → resolveAll cbs vs ps !! q = ps !! q.
Proof.
  revert vs ps. induction cbs as [|p cbs IH]; intros [|v vs] ps Hq; simpl; try done.
  apply not_elem_of_cons in Hq as [Hne Hq].
  rewrite IH; [|done]. by apply settle_lookup_ne.
Qed.

Lemma resolveAll_settled cbs vs ps q st :
  ps !! q = Some st → st ≠ Pending → resolveAll cbs vs ps !! q = Some st.
Proof.
  revert vs ps. induction cbs as [|p cbs IH]; intros [|v vs] ps H Hne; simpl; try done.
  apply IH; [|done]. by apply settle_settled.
Qed.

(** Resolving a batch fulfils the promise at each position with the value at
    that position. *)
Lemma resolveAll_resolves cbs vs ps i q v :
  NoDup cbs → cbs !! i = Some q → vs !! i = Some v → ps !! q = Some Pending →
  resolveAll cbs vs ps !! q = Some (Fulfilled v).
Proof.
  revert vs ps i. induction cbs as [|p cbs IH]; intros [|w vs] ps i Hnd Hq Hv H;
    try done.
  inversion Hnd as [|?? Hnotin Hnd']; subst. simpl. destruct i as [|i]; simpl in *.
  - injection Hq as ->. injection Hv as ->.
    apply resolveAll_settled; [|done]. by apply settle_pending.
  - apply (IH _ _ i); try done.
    rewrite settle_lookup_ne; [done|]. intros ->. apply Hnotin.
    by eapply list_elem_of_lookup_2.
Qed.

(** ** Clearing *)

Lemma clearAll_frame keys s :
  promises (clearAll keys s) = promises s ∧
  batch_keys (clearAll keys s) = batch_keys s ∧
  batch_callbacks (clearAll keys s) = batch_callbacks s ∧
  inflight (clearAll keys s) = inflight s ∧
  requests (clearAll keys s) = requests s.
Proof.
  revert s. induction keys as [|k keys IH]; intros s; [done|].
  unfold clearAll in *. simpl. destruct (IH (clear k s)) as (-> & -> & -> & -> & ->).
  done.
Qed.

Lemma clearAll_none keys s c :
  cacheMap s !! c = None → cacheMap (clearAll keys s) !! c = None.
Proof.
  revert s. induction keys as [|k keys IH]; intros s H; [done|].
  unfold clearAll in *. simpl. apply IH. simpl.
  apply lookup_delete_None. by right.
Qed.

Lemma clearAll_cleared keys s key :
  key ∈ keys → cacheMap (clearAll keys s) !! cacheKeyFn key = None.
Proof.
  revert s. induction keys as [|k keys IH]; intros s Hin.
  { by apply elem_of_nil in Hin. }
  apply elem_of_cons in Hin as [->|Hin].
  - apply (clearAll_none keys (clear k s)). simpl. apply lookup_delete_eq.
  - apply (IH (clear k s) Hin).
Qed.

Lemma clearAll_lookup keys s c p :
  cacheMap (clearAll keys s) !! c = Some p → cacheMap s !! c = Some p.
Proof.
  revert s. induction keys as [|k keys IH]; intros s; [done|].
  unfold clearAll in *. simpl. intros H. apply IH in H. simpl in H.
  by apply lookup_delete_Some in H as [_ H].
Qed.

Lemma clearAll_other keys s c :
  (∀ key, key ∈ keys → cacheKeyFn key ≠ c) →
  cacheMap (clearAll keys s) !! c = cacheMap s !! c.
Proof.
  revert s. induction keys as [|k keys IH]; intros s Hne; [done|].
  unfold clearAll in *. simpl. rewrite IH.
  - simpl. apply lookup_delete_ne. apply Hne. left.
  - intros key Hin. apply Hne. by right.
Qed.

(** ** The loader invariant *)

Lemma grows_refl s : grows s s.
Proof. by split. Qed.


Lemma grows_length s s' p :
  grows s s' → p < length (promises s) → p < length (promises s').
Proof.
  intros [_ H] Hp. apply lookup_lt_is_Some in Hp as [st Hst].
  eapply lookup_lt_Some. eauto.
Qed.

Lemma owns_grows keys cbs s s' : grows s s' → owns keys cbs s → owns keys cbs s'.
Proof.
  intros [Hc Hp] Ho i key p Hk Hcb. destruct (Ho i key p Hk Hcb). eauto.
Qed.

Lemma wf_grows s s' : wf s → sameBatches s s' → grows s s' → wf s'.
Proof.
  intros [H1 H2 H3 H4 H5] (Ek & Ec & Ei) Hg.
  split; rewrite ?Ek, ?Ec, ?Ei; try done.
  - by eapply owns_grows.
  - intros b B HB. destruct (H4 b B HB) as (L1 & L2 & Nd & Ha & Ho).
    split_and!; try done.
    + intros p Hp. destruct (Ha p Hp). split; [|done]. by eapply grows_length.
    + intros Hs. eapply owns_grows; eauto.
Qed.

Lemma wf_new : wf newEnvoyAPI.
Proof.
  split; simpl; try done; try constructor.
  all: intros *; by rewrite lookup_nil.
Qed.

(** *** Growth of the operations *)

Lemma prime_grows key v s : grows s (prime key v s).
Proof. split; eauto using prime_cache_mono, prime_promises_mono. Qed.

Lemma prime_sameBatches key v s : sameBatches s (prime key v s).
Proof. destruct (prime_frame key v s) as (? & ? & ? & ?). by split_and!. Qed.

Lemma primeModel_grows model s : grows s (primeModel model s).2.
Proof. split; eauto using primeModel_cache_mono, primeModel_promises_mono. Qed.

Lemma primeModel_sameBatches model s : sameBatches s (primeModel model s).2.
Proof. destruct (primeModel_frame model s) as (? & ? & ? & ?). by split_and!. Qed.

Lemma forEachModel_grows models s : grows s (forEachModel models s).2.
Proof. split; eauto using forEachModel_cache_mono, forEachModel_promises_mono. Qed.

Lemma forEachModel_sameBatches models s : sameBatches s (forEachModel models s).2.
Proof. destruct (forEachModel_frame models s) as (? & ? & ? & ?). by split_and!. Qed.

(** The interceptor changes the state only through [forEachModel]. *)
Lemma interceptResponse_state response s :
  (interceptResponse response s).2 = s ∨
  ∃ models, (interceptResponse response s).2 = (forEachModel models s).2.
Proof.
  unfold interceptResponse.
  destruct (getProp (resp_data response) "data") as [m|]; [|by left].
  destruct (getProp (resp_data response) "included") as [inc|]; [|by left].
  destruct (modelsOf m inc) as [models|]; [|by left].
  right. exists models. by destruct (forEachModel models s) as [[[]|] ?].
Qed.

Lemma axiosSettle_state r s :
  (axiosSettle r s).2 = s ∨ ∃ models, (axiosSettle r s).2 = (forEachModel models s).2.
Proof. destruct r; simpl; [apply interceptResponse_state|by left]. Qed.

Lemma axiosSettle_grows r s : grows s (axiosSettle r s).2.
Proof.
  destruct (axiosSettle_state r s) as [->|[models ->]];
    [apply grows_refl|apply forEachModel_grows].
Qed.

Lemma axiosSettle_sameBatches r s : sameBatches s (axiosSettle r s).2.
Proof.
  destruct (axiosSettle_state r s) as [->|[models ->]];
    [done|apply forEachModel_sameBatches].
Qed.

Lemma axiosSettle_requests r s : requests (axiosSettle r s).2 = requests s.
Proof.
  destruct (axiosSettle_state r s) as [->|[models ->]]; [done|].
  apply forEachModel_frame.
Qed.

Lemma axiosCall_grows request r s : grows s (axiosCall request r s).2.
Proof. apply (axiosSettle_grows r (logRequest request s)). Qed.

Lemma axiosCall_sameBatches request r s : sameBatches s (axiosCall request r s).2.
Proof. apply (axiosSettle_sameBatches r (logRequest request s)). Qed.

Lemma axiosCall_requests request r s :
  requests (axiosCall request r s).2 = requests s ++ [request].
Proof. apply (axiosSettle_requests r (logRequest request s)). Qed.

(** *** The invariant is preserved *)

Lemma wf_prime key v s : wf s → wf (prime key v s).
Proof. intros H. eapply wf_grows; eauto using prime_grows, prime_sameBatches. Qed.

Lemma wf_axiosSettle r s : wf s → wf (axiosSettle r s).2.
Proof.
  intros H. eapply wf_grows; eauto using axiosSettle_grows, axiosSettle_sameBatches.
Qed.

Lemma wf_axiosCall request r s : wf s → wf (axiosCall request r s).2.
Proof.
  intros H. eapply wf_grows; eauto using axiosCall_grows, axiosCall_sameBatches.
Qed.

Lemma load_miss_grows key s :
  cacheMap s !! cacheKeyFn key = None → grows s (load key s).2.
Proof.
  intros E. unfold load. rewrite E. split; simpl.
  - intros c p H. rewrite lookup_insert_ne; [done|]. congruence.
  - intros p st H. by apply lookup_app_l_Some.
Qed.

Lemma wf_load key s : wf s → wf (load key s).2.
Proof.
  intros Hwf. destruct (cacheMap s !! cacheKeyFn key) as [p|] eqn:E.
  { by rewrite (load_hit _ _ _ E). }
  pose proof (load_miss_grows key s E) as Hg.
  destruct Hwf as [H1 H2 H3 H4 H5].
  assert (Hfresh : length (promises s) ∉ batch_callbacks s).
  { intros Hin. apply list_elem_of_lookup in Hin as [i Hi].
    destruct (lookup_lt_is_Some_2 (batch_keys s) i) as [k Hk].
    { rewrite H1. by eapply lookup_lt_Some. }
    destruct (H3 i k _ Hk Hi) as [_ Hp]. apply lookup_lt_Some in Hp. lia. }
  revert Hg. unfold load. rewrite E. simpl. intros Hg.
  split; simpl.
  - rewrite !length_app. simpl. lia.
  - apply NoDup_app. split_and!; [done| |apply NoDup_singleton].
    intros p Hp Hp'. apply list_elem_of_singleton in Hp'. by subst.
  - intros i k p Hk Hp.
    destruct (decide (i < length (batch_keys s))) as [Hlt|Hge].
    + rewrite lookup_app_l in Hk; [|done]. rewrite lookup_app_l in Hp; [|lia].
      eapply owns_grows; eauto.
    + rewrite lookup_app_r in Hk; [|lia]. rewrite lookup_app_r in Hp; [|lia].
      rewrite H1 in Hk.
      destruct (i - length (batch_callbacks s)) as [|n] eqn:En; simpl in *; [|done].
      injection Hk as <-. injection Hp as <-. split.
      * apply lookup_insert_eq.
      * rewrite lookup_app_r; [|done]. by rewrite Nat.sub_diag.
  - intros b B HB. destruct (H4 b B HB) as (L1 & L2 & Nd & Ha & Ho).
    split_and!; try done.
    + intros p Hp. destruct (Ha p Hp) as [Hlt Hnin]. rewrite length_app. simpl.
      split; [lia|]. intros Hin. apply elem_of_app in Hin as [?|Hin]; [done|].
      apply list_elem_of_singleton in Hin. lia.
    + intros Hs. eapply owns_grows; eauto.
  - done.
Qed.

Lemma wf_dispatchBatch s : wf s → wf (dispatchBatch s).
Proof.
  intros Hwf. unfold dispatchBatch. destruct (batch_keys s) as [|k0 ks] eqn:Ek; [done|].
  rewrite <- Ek. destruct Hwf as [H1 H2 H3 H4 H5].
  split; simpl.
  - done.
  - constructor.
  - intros i key p H. by rewrite lookup_nil in H.
  - intros b B HB. apply lookup_app_Some in HB as [HB|[Hge HB]].
    + destruct (H4 b B HB) as (L1 & L2 & Nd & Ha & Ho). split_and!; try done.
      intros p Hp. destruct (Ha p Hp). split; [done|]. apply not_elem_of_nil.
    + destruct (b - length (inflight s)) as [|n]; simpl in HB; [|done].
      injection HB as <-. simpl. split_and!; try done.
      * by rewrite length_replicate.
      * intros p Hp. split; [|apply not_elem_of_nil].
        apply list_elem_of_lookup in Hp as [i Hi].
        destruct (lookup_lt_is_Some_2 (batch_keys s) i) as [k Hk].
        { rewrite H1. by eapply lookup_lt_Some. }
        destruct (H3 i k _ Hk Hi) as [_ Hp]. by apply lookup_lt_Some in Hp.
  - intros b B b' B' p HB HB' Hp Hp'.
    apply lookup_app_Some in HB as [HB|[Hge HB]];
      apply lookup_app_Some in HB' as [HB'|[Hge' HB']].
    + eauto.
    + destruct (b' - length (inflight s)) as [|n]; simpl in HB'; [|done].
      injection HB' as <-. simpl in Hp'.
      destruct (H4 b B HB) as (_ & _ & _ & Ha & _). by destruct (Ha p Hp).
    + destruct (b - length (inflight s)) as [|n]; simpl in HB; [|done].
      injection HB as <-. simpl in Hp.
      destruct (H4 b' B' HB') as (_ & _ & _ & Ha & _). by destruct (Ha p Hp').
    + destruct (b - length (inflight s)) as [|n] eqn:E1; simpl in HB; [|done].
      destruct (b' - length (inflight s)) as [|n'] eqn:E2; simpl in HB'; [|done].
      lia.
Qed.

(** Two owners of one cache key hold the same promise. *)
Lemma owns_same_key keys cbs keys' cbs' s i key p j key' p' :
  owns keys cbs s → owns keys' cbs' s →
  keys !! i = Some key → cbs !! i = Some p →
  keys' !! j = Some key' → cbs' !! j = Some p' →
  cacheKeyFn key = cacheKeyFn key' → p = p'.
Proof.
  intros Ho Ho' Hk Hp Hk' Hp' E.
  destruct (Ho i key p Hk Hp) as [H1 _]. destruct (Ho' j key' p' Hk' Hp') as [H2 _].
  congruence.
Qed.

(** An answer that leaves a batch unsettled, or comes after it settled, only
    records the slot. *)
Lemma wf_setBatch s b B slots settled :
  wf s → inflight s !! b = Some B →
  length slots = length (b_slots B) →
  (settled = false → b_settled B = false) →
  wf (setBatch b (withSlots B slots settled) s).
Proof.
  intros [H1 H2 H3 H4 H5] HB Hlen Hs. split; simpl; try done.
  - intros b' B' HB'. destruct (decide (b = b')) as [<-|Hne].
    + rewrite list_lookup_insert_eq in HB'; [|by eapply lookup_lt_Some].
      injection HB' as <-. simpl.
      destruct (H4 b B HB) as (L1 & L2 & Nd & Ha & Ho).
      split_and!; try done; [congruence|]. intros E. by apply Ho, Hs.
    + rewrite list_lookup_insert_ne in HB'; [|done]. apply (H4 b' B' HB').
  - intros b1 B1 b2 B2 p HB1 HB2 Hp1 Hp2.
    assert (∀ b' B', <[b:=withSlots B slots settled]> (inflight s) !! b' = Some B' →
              ∃ B'', inflight s !! b' = Some B'' ∧ b_callbacks B'' = b_callbacks B')
      as Hback.
    { intros b' B' HB'. destruct (decide (b = b')) as [<-|Hne].
      - rewrite list_lookup_insert_eq in HB'; [|by eapply lookup_lt_Some].
        injection HB' as <-. by exists B.
      - rewrite list_lookup_insert_ne in HB'; [|done]. by exists B'. }
    destruct (Hback _ _ HB1) as (B1' & HB1' & E1).
    destruct (Hback _ _ HB2) as (B2' & HB2' & E2).
    rewrite <- E1 in Hp1. rewrite <- E2 in Hp2. eauto.
Qed.

(** The batch [b] settles: its promises change, and possibly the cache
    entries of its keys; nothing else does. *)
Lemma wf_settles s s' b B slots :
  wf s → inflight s !! b = Some B → b_settled B = false →
  length slots = length (b_slots B) →
  batch_keys s' = batch_keys s →
  batch_callbacks s' = batch_callbacks s →
  inflight s' = <[b := withSlots B slots true]> (inflight s) →
  length (promises s') = length (promises s) →
  (∀ q, q ∉ b_callbacks B → promises s' !! q = promises s !! q) →
  (∀ c, (∀ key, key ∈ b_keys B → cacheKeyFn key ≠ c) →
        cacheMap s' !! c = cacheMap s !! c) →
  wf s'.
Proof.
  intros Hwf HB Hun Hlen Ek Ec Ei Elen Hps Hcache.
  pose proof Hwf as [H1 H2 H3 H4 H5].
  destruct (H4 b B HB) as (L1 & L2 & Nd & Ha & Ho). specialize (Ho Hun).
  (* an owner other than [b] keeps what it owns *)
  assert (∀ keys cbs, owns keys cbs s → length keys = length cbs →
            (∀ p, p ∈ cbs → p ∉ b_callbacks B) → owns keys cbs s') as Hkeep.
  { intros keys cbs Ho' Hl Hdis i key p Hk Hp.
    destruct (Ho' i key p Hk Hp) as [Hc Hpend].
    assert (p ∉ b_callbacks B) as Hnin.
    { apply Hdis. by eapply list_elem_of_lookup_2. }
    split; [|by rewrite Hps].
    rewrite Hcache; [done|]. intros key' Hin E.
    apply list_elem_of_lookup in Hin as [j Hj].
    destruct (lookup_lt_is_Some_2 (b_callbacks B) j) as [p' Hp'].
    { rewrite <- L1. by eapply lookup_lt_Some. }
    assert (p' = p) as ->.
    { by eapply (owns_same_key (b_keys B) (b_callbacks B) keys cbs s j key' p' i key p). }
    apply Hnin. by eapply list_elem_of_lookup_2. }
  pose proof (wf_setBatch s b B slots true Hwf HB Hlen ltac:(done)) as [_ _ _ G4 G5].
  simpl in G4, G5.
  split; rewrite ?Ek, ?Ec, ?Ei; try done.
  - apply Hkeep; [done..|]. intros p Hp Hp'. by destruct (Ha p Hp').
  - intros b' B' HB'. destruct (G4 b' B' HB') as (M1 & M2 & Nd' & Ma & Mo).
    split_and!; try done.
    + intros p Hp. rewrite Elen. by apply Ma.
    + intros Hs. destruct (decide (b = b')) as [<-|Hne].
      * rewrite list_lookup_insert_eq in HB'; [|by eapply lookup_lt_Some].
        by injection HB' as <-.
      * rewrite list_lookup_insert_ne in HB'; [|done].
        destruct (H4 b' B' HB') as (_ & _ & _ & _ & Ho').
        apply Hkeep; [by apply Ho'|done|]. intros p Hp Hp'.
        apply Hne. by eapply (H5 b B b' B' p).
Qed.

Lemma wf_deliver b i B result s :
  wf s → inflight s !! b = Some B → wf (deliver b i B result s).
Proof.
  intros Hwf HB. destruct result as [v|e]; simpl.
  - destruct (b_settled B) eqn:Hs.
    + apply wf_setBatch; try done. apply length_insert.
    + destruct (mapM slotValue (<[i:=Done v]> (b_slots B))) as [values|].
      * apply (wf_settles s _ b B (<[i:=Done v]> (b_slots B))); try done.
        -- apply length_insert.
        -- simpl. apply length_resolveAll.
        -- intros q Hq. simpl. by apply resolveAll_other.
      * apply wf_setBatch; try done. apply length_insert.
  - destruct (b_settled B) eqn:Hs.
    + apply wf_setBatch; try done. apply length_insert.
    + destruct (clearAll_frame (b_keys B) s) as (Fp & Fk & Fc & Fi & Fr).
      apply (wf_settles s _ b B (<[i:=Failed]> (b_slots B))); try done; simpl.
      * apply length_insert.
      * by rewrite Fi.
      * by rewrite length_rejectAll, Fp.
      * intros q Hq. rewrite rejectAll_other; [|done]. by rewrite Fp.
      * intros c Hc. by apply clearAll_other.
Qed.

Lemma wf_respond b i r s : wf s → wf (respond b i r s).
Proof.
  intros Hwf. unfold respond.
  destruct (inflight s !! b) as [B|] eqn:HB; [|done].
  destruct (b_slots B !! i) as [[]|] eqn:Hi; try done.
  pose proof (wf_axiosSettle r s Hwf) as Hwf1.
  destruct (axiosSettle_sameBatches r s) as (Ek & Ec & Ei).
  destruct (axiosSettle r s) as [answer s1]. simpl in *.
  apply wf_deliver; [done|]. by rewrite Ei.
Qed.

Lemma wf_step e s : wf s → wf (step e s).
Proof.
  destruct e; simpl;
    eauto using wf_load, wf_prime, wf_dispatchBatch, wf_respond, wf_axiosCall.
Qed.

Lemma run_snoc evs e s : run (evs ++ [e]) s = step e (run evs s).
Proof. unfold run. by rewrite foldl_app. Qed.

Lemma wf_run evs s : wf s → wf (run evs s).
Proof.
  intros H. induction evs as [|e evs IH] using rev_ind; [done|].
  rewrite run_snoc. by apply wf_step.
Qed.

Lemma reachable_wf s : reachable s → wf s.
Proof. intros [evs ->]. apply wf_run, wf_new. Qed.

Lemma reachable_step e s : reachable s → reachable (step e s).
Proof. intros [evs ->]. exists (evs ++ [e]). by rewrite run_snoc. Qed.

Lemma reachable_run evs s : reachable s → reachable (run evs s).
Proof.
  intros H. induction evs as [|e evs IH] using rev_ind; [done|].
  rewrite run_snoc. by apply reachable_step.
Qed.

(** ** Fetches per cache key *)



(** The keys a batch owns have pairwise distinct cache keys. *)
Lemma owns_NoDup keys cbs s :
  owns keys cbs s → length keys = length cbs → NoDup cbs →
  NoDup (cacheKeyFn <$> keys).
Proof.
  intros Ho Hlen Hnd. apply NoDup_alt. intros i j c Hi Hj.
  rewrite list_lookup_fmap in Hi, Hj.
  destruct (keys !! i) as [ki|] eqn:Eki; [|done].
  destruct (keys !! j) as [kj|] eqn:Ekj; [|done].
  simpl in *. injection Hi as Hi. injection Hj as Hj.
  destruct (lookup_lt_is_Some_2 cbs i) as [pi Hpi].
  { rewrite <- Hlen. by eapply lookup_lt_Some. }
  destruct (lookup_lt_is_Some_2 cbs j) as [pj Hpj].
  { rewrite <- Hlen. by eapply lookup_lt_Some. }
  assert (pi = pj) as ->.
  { eapply (owns_same_key keys cbs keys cbs s i ki pi j kj pj); eauto. congruence. }
  eapply NoDup_lookup; eauto.
Qed.

Lemma wf_batch_keys_NoDup s : wf s → NoDup (cacheKeyFn <$> batch_keys s).
Proof. intros [H1 H2 H3 _ _]. by eapply owns_NoDup. Qed.

Lemma fetched_setBatch s b B B' :
  inflight s !! b = Some B → b_keys B' = b_keys B →
  fetched (setBatch b B' s) = fetched s.
Proof.
  intros HB E. unfold fetched. simpl. rewrite list_fmap_insert, E.
  rewrite list_insert_id; [done|]. by rewrite list_lookup_fmap, HB.
Qed.

Lemma fetched_sameBatches s s' : sameBatches s s' → fetched s' = fetched s.
Proof. intros (_ & _ & E). unfold fetched. by rewrite E. Qed.


Lemma requests_dispatchBatch s :
  requests (dispatchBatch s) = requests s ++ (fetchRequest <$> batch_keys s).
Proof.
  unfold dispatchBatch. destruct (batch_keys s) as [|k ks] eqn:E; simpl; [|done].
  by rewrite app_nil_r.
Qed.

Lemma deliver_batches b i B result s :
  inflight s !! b = Some B →
  batch_keys (deliver b i B result s) = batch_keys s ∧
  batch_callbacks (deliver b i B result s) = batch_callbacks s ∧
  fetched (deliver b i B result s) = fetched s.
Proof.
  intros HB. destruct (clearAll_frame (b_keys B) s) as (Fp & Fk & Fc & Fi & Fr).
  destruct result as [v|e]; simpl.
  - destruct (b_settled B).
    + split_and!; [done..|]. by eapply fetched_setBatch.
    + destruct (mapM slotValue (<[i:=Done v]> (b_slots B))) as [values|].
      * split_and!; [done..|].
        exact (fetched_setBatch
                 (setPromises (resolveAll (b_callbacks B) values (promises s)) s)
                 b B (withSlots B (<[i:=Done v]> (b_slots B)) true) HB eq_refl).
      * split_and!; [done..|]. by eapply fetched_setBatch.
  - destruct (b_settled B).
    + split_and!; [done..|]. by eapply fetched_setBatch.
    + split_and!; simpl; [done..|].
      assert (inflight (failedDispatch B e s) !! b = Some B) as HB2.
      { simpl. by rewrite Fi. }
      rewrite (fetched_setBatch _ b B _ HB2); [|done].
      unfold fetched. simpl. by rewrite Fi.
Qed.

Lemma deliver_settled b i B result s p st :
  promises s !! p = Some st → st ≠ Pending →
  promises (deliver b i B result s) !! p = Some st.
Proof.
  intros H Hne. destruct (clearAll_frame (b_keys B) s) as (Fp & _).
  destruct result as [v|e]; simpl.
  - destruct (b_settled B); [done|].
    destruct (mapM slotValue (<[i:=Done v]> (b_slots B))) as [values|]; [|done].
    simpl. by apply resolveAll_settled.
  - destruct (b_settled B); [done|]. simpl. apply rejectAll_settled; [|done].
    by rewrite Fp.
Qed.


Lemma respond_batches b i r s :
  batch_keys (respond b i r s) = batch_keys s ∧
  batch_callbacks (respond b i r s) = batch_callbacks s ∧
  fetched (respond b i r s) = fetched s.
Proof.
  unfold respond.
  destruct (inflight s !! b) as [B|] eqn:HB; [|done].
  destruct (b_slots B !! i) as [[]|] eqn:Hi; try done.
  pose proof (axiosSettle_sameBatches r s) as Hsame.
  pose proof (fetched_sameBatches _ _ Hsame) as Hf.
  destruct Hsame as (Ek & Ec & Ei).
  destruct (axiosSettle r s) as [answer s1]. simpl in *.
  rewrite <- Ek, <- Ec, <- Hf. apply deliver_batches. by rewrite Ei.
Qed.

(** ** A settled promise stays settled *)

Lemma step_settled e s p st :
  promises s !! p = Some st → st ≠ Pending → promises (step e s) !! p = Some st.
Proof.
  intros H Hne. destruct e as [key|key v| |b i r|request r]; simpl.
  - unfold load. destruct (cacheMap s !! cacheKeyFn key); simpl; [done|].
    by apply lookup_app_l_Some.
  - by apply prime_promises_mono.
  - unfold dispatchBatch. by destruct (batch_keys s).
  - unfold respond.
    destruct (inflight s !! b) as [B|] eqn:HB; [|done].
    destruct (b_slots B !! i) as [[]|] eqn:Hi; try done.
    destruct (axiosSettle_grows r s) as [_ Hg]. apply Hg in H.
    destruct (axiosSettle r s) as [answer s1]. simpl in *.
    by apply deliver_settled.
  - by apply axiosCall_grows.
Qed.



(** ** Following one pending load *)












(** ** Loads issued in one tick *)

Lemma load_grows key s : grows s (load key s).2.
Proof.
  destruct (cacheMap s !! cacheKeyFn key) as [p|] eqn:E.
  - rewrite (load_hit _ _ _ E). apply grows_refl.
  - by apply load_miss_grows.
Qed.




(** ** Absorbable responses *)

Lemma interceptResponse_absorbable response models s :
  absorbable response models →
  interceptResponse response s = (Normal response, (forEachModel models s).2).
Proof.
  intros (m & inc & Hd & Hi & Hm & Hr). unfold interceptResponse.
  rewrite Hd, Hi, Hm. pose proof (forEachModel_normal models s Hr) as Hn.
  destruct (forEachModel models s) as [[[]|e] s']; simpl in *; [done|done].
Qed.


Lemma deliver_normal_cache b i B v s :
  cacheMap (deliver b i B (Normal v) s) = cacheMap s.
Proof.
  simpl. destruct (b_settled B); [done|].
  by destruct (mapM slotValue (<[i:=Done v]> (b_slots B))).
Qed.


(** ** The storage pipeline *)

Lemma chain_snoc cs c this h :
  Pipeline.chain (cs ++ [c]) this h
  = Pipeline.call c (Pipeline.chain cs this h).1 (Pipeline.chain cs this h).2.
Proof.
  revert this h. induction cs as [|c' cs IH]; intros this h; simpl.
  - by destruct (Pipeline.call c this h).
  - destruct (Pipeline.call c' this h) as [r h']. apply IH.
Qed.

Lemma call_addCommand c this h :
  Pipeline.call c this h = Pipeline.addCommand this (Pipeline.commandOf c) h.
Proof. by destruct c. Qed.

(** Every builder call returns the pipeline it was called on and appends one
    command to it, leaving the other pipelines alone; a chain of calls
    appends the commands in call order. *)
Lemma chain_appends cs this h p :
  h !! this = Some p →
  (Pipeline.chain cs this h).1 = this ∧
  (Pipeline.chain cs this h).2 !! this
    = Some {| Pipeline.installId := Pipeline.installId p;
              Pipeline.commands := Pipeline.commands p ++ (Pipeline.commandOf <$> cs) |} ∧
  ∀ other, other ≠ this → (Pipeline.chain cs this h).2 !! other = h !! other.
Proof.
  intros Hp. induction cs as [|c cs IH] using rev_ind.
  { simpl. rewrite app_nil_r. by destruct p. }
  destruct IH as (E1 & E2 & E3). rewrite chain_snoc, call_addCommand, E1.
  unfold Pipeline.addCommand. cbn [fst snd]. split_and!; [done| |].
  - rewrite list_lookup_alter_eq, E2. simpl. by rewrite fmap_app, app_assoc.
  - intros other Hne. rewrite list_lookup_alter_ne; [|done]. by apply E3.
Qed.

(** The request [execute] sends: one POST with the commands in call order,
    and the installation id when it is truthy. *)
Lemma execute_request this transport h api p :
  h !! this = Some p →
  requests (Pipeline.execute this transport h api).2
  = requests api ++ [storageRequest (Pipeline.commands p) (Pipeline.installId p)].
Proof.
  intros Hp. unfold Pipeline.execute, storagePipeline. rewrite Hp.
  set (req := storageRequest _ _).
  pose proof (axiosCall_requests req (transport req) api) as Hr.
  destruct (axiosCall req (transport req) api) as [[response|e] s1];
    simpl in *; by rewrite Hr.
Qed.

(** X19. When no result is [null] (or [undefined]), [execute] returns the
    result list of the transport as it is. *)
Lemma execute_returns_results this transport h api p status results :
  h !! this = Some p →
  transport (storageRequest (Pipeline.commands p) (Pipeline.installId p))
    = Success (mkResponse status (VObj [("data", VArr results)])) →
  Forall readable results →
  (Pipeline.execute this transport h api).1 = Normal (VArr results).
Proof.
  intros Hp Ht Hr. unfold Pipeline.execute, storagePipeline. rewrite Hp, Ht. simpl.
  rewrite (interceptResponse_absorbable _ results).
  - done.
  - exists (VArr results), VUndefined. by split_and!.
Qed.

(** * Results: the loader *)

(** C1, as stated, fails: a request for flow 42 with [include="flow"] and one
    without share one cache entry; the second resolves from the entry of the
    first and the dispatch issues one fetch, for the first. *)
Lemma include_not_in_cache_key_counterexample :
  let k1 := mkKey (VStr "flows") (VStr "42") (VStr "flow") in
  let k2 := mkKey (VStr "flows") (VStr "42") VUndefined in
  let r1 := load k1 newEnvoyAPI in
  let r2 := load k2 r1.2 in
  k_include k1 ≠ k_include k2 ∧
  r2.1 = r1.1 ∧ r2.2 = r1.2 ∧
  requests (dispatchBatch r2.2) = [fetchRequest k1].
Proof. split_and!; [discriminate|reflexivity..]. Qed.

(** C1 (amended): two load requests with the same type and id have the same
    cache key whatever their include directives; once one has been loaded,
    loading the other returns the promise of the first and changes nothing:
    it enqueues no fetch of its own.  When the key was not cached, the next
    dispatch issues one GET for the two requests, with the include of the
    first; when it was, nothing is enqueued at all. *)
Theorem same_identity_shares_cache_entry s ty i include1 include2 :
  let k1 := mkKey ty i include1 in
  let k2 := mkKey ty i include2 in
  let r1 := load k1 s in
  let r2 := load k2 r1.2 in
  cacheKeyFn k1 = cacheKeyFn k2 ∧
  r2.1 = r1.1 ∧ r2.2 = r1.2 ∧
  match cacheMap s !! cacheKeyFn k1 with
  | None =>
      requests (dispatchBatch r2.2)
        = requests s ++ (fetchRequest <$> (batch_keys s ++ [k1]))
  | Some _ => r2.2 = s
  end.
Proof.
  intros k1 k2 r1 r2.
  assert (r2 = (r1.1, r1.2)) as E by (by apply load_again).
  rewrite E. simpl. split_and!; [done..|].
  destruct (cacheMap s !! cacheKeyFn k1) as [p|] eqn:Hc.
  - unfold r1. by rewrite (load_hit _ _ _ Hc).
  - rewrite requests_dispatchBatch. unfold r1, load. by rewrite Hc.
Qed.






(** C5, as stated, fails.  A prime issued while the fetch for the key is
    pending changes nothing, and the callers get the fetched value, not the
    primed one; a prime of a key that has an entry does not replace it. *)
Lemma prime_does_not_overwrite_counterexample :
  let key := mkKey (VStr "flows") (VStr "42") VUndefined in
  let fetchedFlow := VObj [("type", VStr "flows"); ("id", VStr "42");
                           ("attributes", VObj [("name", VStr "fetched")])] in
  let primedFlow := VObj [("type", VStr "flows"); ("id", VStr "42");
                          ("attributes", VObj [("name", VStr "primed")])] in
  let s1 := dispatchBatch (load key newEnvoyAPI).2 in
  let s2 := prime key primedFlow s1 in
  let s3 := respond 0 0 (Success (mkResponse 200 (VObj [("data", fetchedFlow)]))) s2 in
  let t := prime key primedFlow (prime key fetchedFlow newEnvoyAPI) in
  s2 = s1 ∧
  promises s3 !! (load key s3).1 = Some (Fulfilled fetchedFlow) ∧
  promises t !! (load key t).1 = Some (Fulfilled fetchedFlow) ∧
  fetchedFlow ≠ primedFlow.
Proof. split_and!; [reflexivity..|discriminate]. Qed.

(** C5 (amended): [prime] never touches the batches or the transport.  For a
    key that has no cache entry it inserts the value, and a load of the key
    that follows returns a promise fulfilled with the primed value and
    changes nothing (no fetch).  For a key that has an entry, resolved or
    pending, it does nothing: the entry stays. *)
Theorem prime_inserts_only_when_absent key v s :
  batch_keys (prime key v s) = batch_keys s ∧
  batch_callbacks (prime key v s) = batch_callbacks s ∧
  inflight (prime key v s) = inflight s ∧
  requests (prime key v s) = requests s ∧
  match cacheMap s !! cacheKeyFn key with
  | None =>
      ∃ p, load key (prime key v s) = (p, prime key v s) ∧
           promises (prime key v s) !! p = Some (Fulfilled v)
  | Some p => prime key v s = s ∧ load key (prime key v s) = (p, s)
  end.
Proof.
  destruct (prime_frame key v s) as (-> & -> & -> & ->). split_and!; try done.
  destruct (cacheMap s !! cacheKeyFn key) as [p|] eqn:E.
  - rewrite prime_hit; [|by eexists]. split; [done|]. by apply load_hit.
  - destruct (prime_cached key v s) as [p Hp]. exists p. split.
    + by apply load_hit.
    + destruct (prime_new_entry key v s _ p Hp) as [?|(_ & _ & ?)]; [congruence|done].
Qed.





(** C6, as stated, fails: two keys are fetched in one batch, the fetch of
    the first fails with one error and then the fetch of the second with
    another; the callers waiting for the second key have been rejected with
    the error of the first. *)
Lemma waiters_get_first_failure_counterexample :
  let k1 := mkKey (VStr "flows") (VStr "1") VUndefined in
  let k2 := mkKey (VStr "flows") (VStr "2") VUndefined in
  let e1 := AxiosError "Request failed with status code 404" in
  let e2 := AxiosError "Request failed with status code 500" in
  let r := loadAll [k1; k2] newEnvoyAPI in
  let s := dispatchBatch r.2 in
  let s' := respond 0 1 (Failure e2) (respond 0 0 (Failure e1) s) in
  r.1 = [0; 1] ∧
  requests s = [fetchRequest k1; fetchRequest k2] ∧
  promises s' !! 1 = Some (Rejected e1) ∧
  promises s' !! 1 ≠ Some (Rejected e2).
Proof. split_and!; [reflexivity..|discriminate]. Qed.

(** C6 (amended): the transport fails the fetch of a key of a dispatched
    batch.  If no fetch of the batch has failed before, every promise of the
    batch, that of the key included, is rejected with that error as it is,
    no key of the batch has a cache entry left, and a later load of the key
    makes a new pending promise and enqueues the key, so that the next
    dispatch fetches it again.  If the batch has settled already, the error
    is dropped: promises and cache stay as they are. *)
Theorem first_failure_rejects_batch s b i B key e :
  reachable s →
  inflight s !! b = Some B →
  b_slots B !! i = Some Waiting →
  b_keys B !! i = Some key →
  let s' := respond b i (Failure e) s in
  if b_settled B then promises s' = promises s ∧ cacheMap s' = cacheMap s
  else
    (∀ p, p ∈ b_callbacks B → promises s' !! p = Some (Rejected e)) ∧
    (∀ key', key' ∈ b_keys B → cacheMap s' !! cacheKeyFn key' = None) ∧
    let r := load key s' in
    promises r.2 !! r.1 = Some Pending ∧
    batch_keys r.2 = batch_keys s ++ [key] ∧
    requests (dispatchBatch r.2)
      = requests s ++ (fetchRequest <$> (batch_keys s ++ [key])).
Proof.
  intros Hreach HB Hi Hk. pose proof (reachable_wf s Hreach) as [_ _ _ H4 _].
  destruct (H4 b B HB) as (L1 & _ & _ & _ & Ho).
  unfold respond. rewrite HB, Hi. simpl.
  destruct (b_settled B) eqn:Hs; [done|]. specialize (Ho eq_refl).
  destruct (clearAll_frame (b_keys B) s) as (Fp & Fk & Fc & Fi & Fr).
  assert (cacheMap (clearAll (b_keys B) s) !! cacheKeyFn key = None) as Hmiss.
  { apply clearAll_cleared. by eapply list_elem_of_lookup_2. }
  split_and!.
  - intros p Hp. simpl. rewrite Fp. apply rejectAll_rejects; [done|].
    apply list_elem_of_lookup in Hp as [j Hj].
    destruct (lookup_lt_is_Some_2 (b_keys B) j) as [kj Hkj].
    { rewrite L1. by eapply lookup_lt_Some. }
    by destruct (Ho j kj p Hkj Hj).
  - intros key' Hin. simpl. by apply clearAll_cleared.
  - unfold load. simpl. rewrite Hmiss. simpl.
    rewrite lookup_app_r; [|done]. by rewrite Nat.sub_diag.
  - unfold load. simpl. rewrite Hmiss. simpl. by rewrite Fk.
  - rewrite requests_dispatchBatch. unfold load. simpl. rewrite Hmiss. simpl.
    by rewrite Fk, Fr.
Qed.

Lemma first_failure_rejects_batch_witness :
  let key := mkKey (VStr "flows") (VStr "42") VUndefined in
  let e := AxiosError "Network Error" in
  let s := dispatchBatch (load key newEnvoyAPI).2 in
  let s' := respond 0 0 (Failure e) s in
  (∀ p, p ∈ [0] → promises s' !! p = Some (Rejected e)) ∧
  (∀ key', key' ∈ [key] → cacheMap s' !! cacheKeyFn key' = None) ∧
  let r := load key s' in
  promises r.2 !! r.1 = Some Pending ∧
  batch_keys r.2 = batch_keys s ++ [key] ∧
  requests (dispatchBatch r.2)
    = requests s ++ (fetchRequest <$> (batch_keys s ++ [key])).
Proof.
  intros key e s.
  apply (first_failure_rejects_batch s 0 0
           {| b_keys := [key]; b_callbacks := [0];
              b_slots := [Waiting]; b_settled := false |} key e).
  - exists [ELoad key; ETick]. reflexivity.
  - reflexivity.
  - reflexivity.
  - reflexivity.
Defined.

(** ** Responses the interceptor cannot absorb *)

(** A body without [data] (or with [data: null]) and without [included]
    makes the interceptor throw before it primes anything. *)
Lemma interceptResponse_missing_data status fs s :
  field "data" fs = VUndefined ∨ field "data" fs = VNull →
  truthy (field "included" fs) = false →
  interceptResponse (mkResponse status (VObj fs)) s = (Throw TypeError, s).
Proof.
  intros Hd Hi. unfold interceptResponse, modelsOf. simpl. rewrite Hi.
  by destruct Hd as [-> | ->].
Qed.

(** C7 fails on the code: the interceptor has no guard.  A successful
    response whose body is [{}], an empty body, or no body at all makes it
    throw a [TypeError], so that the caller's request is rejected instead of
    receiving the response; the promise of a load answered that way is
    rejected.  A body whose [data] is a string passes, and primes the string
    under the key made of its missing type and id. *)
Lemma interceptor_throws_on_malformed_response :
  let key := mkKey (VStr "flows") (VStr "42") VUndefined in
  let s := dispatchBatch (load key newEnvoyAPI).2 in
  interceptResponse (mkResponse 200 (VObj [])) newEnvoyAPI
    = (Throw TypeError, newEnvoyAPI) ∧
  interceptResponse (mkResponse 204 (VStr "")) newEnvoyAPI
    = (Throw TypeError, newEnvoyAPI) ∧
  interceptResponse (mkResponse 200 VUndefined) newEnvoyAPI
    = (Throw TypeError, newEnvoyAPI) ∧
  (axiosSettle (Success (mkResponse 200 (VObj []))) s).1 = Throw TypeError ∧
  promises (respond 0 0 (Success (mkResponse 200 (VObj []))) s) !! 0
    = Some (Rejected TypeError) ∧
  cacheMap (interceptResponse (mkResponse 200 (VObj [("data", VStr "ok")]))
              newEnvoyAPI).2 !! "undefined_undefined" = Some 0.
Proof. split_and!; reflexivity. Qed.

(** * Results: the storage pipeline *)

(** C8 fails on the code: the pipeline [set("a", 1).get("b").unset("c")]
    sends one request with the three commands in order, the server answers
    [[{key: "a", value: 1}, null, null]], and [execute] is rejected with a
    [TypeError] instead of returning the three results, because the response
    goes through the interceptor, which reads [model.type] of [null]. *)
Lemma execute_rejects_null_results :
  let created := Pipeline.new VUndefined [] in
  let built :=
    Pipeline.chain [Pipeline.CSet "a" (VNum 1); Pipeline.CGet "b"; Pipeline.CUnset "c"]
      created.1 created.2 in
  let results := VArr [VObj [("key", VStr "a"); ("value", VNum 1)]; VNull; VNull] in
  let transport := λ _ : AxiosRequest,
    Success (mkResponse 200 (VObj [("data", results)])) in
  let outcome := Pipeline.execute built.1 transport built.2 newEnvoyAPI in
  built.1 = created.1 ∧
  requests outcome.2 =
    [ {| req_method := "POST";
         req_url := "/api/v2/plugin-services/storage";
         req_params := VUndefined;
         req_data := VObj [("commands", VArr [
           VObj [("action", VStr "set"); ("key", VStr "a"); ("value", VNum 1)];
           VObj [("action", VStr "get"); ("key", VStr "b")];
           VObj [("action", VStr "unset"); ("key", VStr "c")] ])] |} ] ∧
  outcome.1 = Throw TypeError ∧
  outcome.1 ≠ Normal results.
Proof. split_and!; [reflexivity..|discriminate]. Qed.

(** C9: when the transport fails the request of [execute], [execute] is
    rejected with that very error: it yields no result list, and neither
    does [executeSingle]; the only trace it leaves is the request sent. *)
Theorem execute_rejects_on_transport_failure this transport h api p e :
  h !! this = Some p →
  transport (storageRequest (Pipeline.commands p) (Pipeline.installId p)) = Failure e →
  Pipeline.execute this transport h api
    = (Throw e, logRequest (storageRequest (Pipeline.commands p) (Pipeline.installId p)) api) ∧
  (Pipeline.executeSingle this transport h api).1 = Throw e.
Proof.
  intros Hp Ht. unfold Pipeline.executeSingle, Pipeline.execute, storagePipeline.
  by rewrite Hp, Ht.
Qed.

Lemma execute_rejects_on_transport_failure_witness :
  let created := Pipeline.new (VStr "install-1") [] in
  let built := Pipeline.chain [Pipeline.CGet "b"] created.1 created.2 in
  let request :=
    storageRequest [VObj [("action", VStr "get"); ("key", VStr "b")]] (VStr "install-1") in
  let e := AxiosError "Request failed with status code 503" in
  let transport := λ _ : AxiosRequest, Failure e in
  Pipeline.execute built.1 transport built.2 newEnvoyAPI
    = (Throw e, logRequest request newEnvoyAPI) ∧
  (Pipeline.executeSingle built.1 transport built.2 newEnvoyAPI).1 = Throw e.
Proof.
  intros created built request e transport.
  apply (execute_rejects_on_transport_failure built.1 transport built.2 newEnvoyAPI
           {| Pipeline.installId := VStr "install-1";
              Pipeline.commands := [VObj [("action", VStr "get"); ("key", VStr "b")]] |} e).
  - reflexivity.
  - reflexivity.
Defined.

(** C10: when the transport answers with an empty result list,
    [executeSingle] resolves to [undefined], the absent first element: not a
    storage item, not [null]. *)
Theorem executeSingle_empty_results_undefined this transport h api p response included :
  h !! this = Some p →
  transport (storageRequest (Pipeline.commands p) (Pipeline.installId p))
    = Success response →
  getProp (resp_data response) "data" = Normal (VArr []) →
  getProp (resp_data response) "included" = Normal included →
  truthy included = false →
  (Pipeline.executeSingle this transport h api).1 = Normal VUndefined ∧
  (Pipeline.executeSingle this transport h api).1 ≠ Normal VNull.
Proof.
  intros Hp Ht Hd Hi Hf.
  assert ((Pipeline.executeSingle this transport h api).1 = Normal VUndefined) as E.
  { unfold Pipeline.executeSingle, Pipeline.execute, storagePipeline.
    rewrite Hp, Ht. simpl. unfold interceptResponse, modelsOf.
    rewrite Hd, Hi, Hf. simpl. by rewrite Hd. }
  by rewrite E.
Qed.

Lemma executeSingle_empty_results_undefined_witness :
  let created := Pipeline.new VUndefined [] in
  let transport := λ _ : AxiosRequest,
    Success (mkResponse 200 (VObj [("data", VArr [])])) in
  (Pipeline.executeSingle created.1 transport created.2 newEnvoyAPI).1
    = Normal VUndefined ∧
  (Pipeline.executeSingle created.1 transport created.2 newEnvoyAPI).1
    ≠ Normal VNull.
Proof.
  intros created transport.
  apply (executeSingle_empty_results_undefined created.1 transport created.2 newEnvoyAPI
           {| Pipeline.installId := VUndefined; Pipeline.commands := [] |}
           (mkResponse 200 (VObj [("data", VArr [])])) VUndefined).
  - reflexivity.
  - reflexivity.
  - reflexivity.
  - reflexivity.
  - reflexivity.
Defined.

(** * Further results: the loader *)

Lemma step_keeps_fulfilled e s c p v :
  wf s → cacheMap s !! c = Some p → promises s !! p = Some (Fulfilled v) →
  cacheMap (step e s) !! c = Some p.
Proof.
  intros Hwf Hc Hp. destruct e as [key|key v'| |b i r|request r]; simpl.
  - by apply load_grows.
  - by apply prime_grows.
  - unfold dispatchBatch. by destruct (batch_keys s).
  - unfold respond.
    destruct (inflight s !! b) as [B|] eqn:HB; [|done].
    destruct (b_slots B !! i) as [[]|] eqn:Hi; try done.
    pose proof (wf_axiosSettle r s Hwf) as [_ _ _ H4 _].
    destruct (axiosSettle_sameBatches r s) as (_ & _ & Ei).
    destruct (axiosSettle_grows r s) as [Hg1 Hg2].
    apply Hg1 in Hc. apply Hg2 in Hp.
    destruct (axiosSettle r s) as [answer s1]. simpl in *.
    rewrite <- Ei in HB. destruct (H4 b B HB) as (L1 & _ & _ & _ & Ho).
    destruct (fetchResult answer) as [w|err]; [by rewrite deliver_normal_cache|].
    simpl. destruct (b_settled B) eqn:Hs; [done|]. simpl.
    rewrite clearAll_other; [done|].
    intros key Hin E. apply list_elem_of_lookup in Hin as [j Hj].
    destruct (lookup_lt_is_Some_2 (b_callbacks B) j) as [q Hq].
    { rewrite <- L1. by eapply lookup_lt_Some. }
    destruct (Ho eq_refl j key q Hj Hq) as [Hc' Hq']. congruence.
  - by apply axiosCall_grows.
Qed.

(** X1. A cache entry whose promise is fulfilled is permanent: whatever
    happens afterwards, the key keeps that promise and the promise keeps its
    value, so every later load of the key returns it without a fetch. *)
Theorem resolved_entry_is_permanent s evs key p v :
  reachable s →
  cacheMap s !! cacheKeyFn key = Some p →
  promises s !! p = Some (Fulfilled v) →
  let s' := run evs s in
  load key s' = (p, s') ∧ promises s' !! p = Some (Fulfilled v).
Proof.
  intros Hreach Hc Hp. simpl.
  assert (cacheMap (run evs s) !! cacheKeyFn key = Some p ∧
          promises (run evs s) !! p = Some (Fulfilled v)) as [H1 H2].
  { induction evs as [|e evs IH] using rev_ind; [done|].
    destruct IH as [IH1 IH2]. rewrite run_snoc. split.
    - eapply step_keeps_fulfilled; eauto. apply wf_run. by apply reachable_wf.
    - by apply step_settled. }
  split; [by apply load_hit|done].
Qed.

Lemma resolved_entry_is_permanent_witness :
  let key := mkKey (VStr "flows") (VStr "42") VUndefined in
  let other := mkKey (VStr "flows") (VStr "43") VUndefined in
  let flow := VObj [("type", VStr "flows"); ("id", VStr "42")] in
  let s := prime key flow newEnvoyAPI in
  let evs := [ELoad other; ETick; ERespond 0 0 (Failure (AxiosError "Network Error"));
              EPrime key VNull] in
  let s' := run evs s in
  load key s' = (0, s') ∧ promises s' !! 0 = Some (Fulfilled flow).
Proof.
  intros key other flow s evs.
  apply (resolved_entry_is_permanent s evs key 0 flow).
  - exists [EPrime key flow]. reflexivity.
  - reflexivity.
  - reflexivity.
Defined.

(** X2. The answer that completes a batch resolves every promise of the
    batch with the value of its own position, in whatever order the answers
    came: each caller gets the [data.data] of the response to its own key. *)
Theorem batch_resolves_positionally s b i B response models v values :
  reachable s →
  inflight s !! b = Some B →
  b_settled B = false →
  b_slots B !! i = Some Waiting →
  absorbable response models →
  getProp (resp_data response) "data" = Normal v →
  mapM slotValue (<[i := Done v]> (b_slots B)) = Some values →
  let s' := respond b i (Success response) s in
  values !! i = Some v ∧
  ∀ j p w, b_callbacks B !! j = Some p → values !! j = Some w →
           promises s' !! p = Some (Fulfilled w).
Proof.
  intros Hreach HB Hs Hi Ha Hd Hm. simpl.
  pose proof (reachable_wf s Hreach) as [_ _ _ H4 _].
  destruct (H4 b B HB) as (L1 & L2 & Nd & _ & Ho). specialize (Ho Hs).
  split.
  - apply mapM_Some_1 in Hm. apply Forall2_lookup_l with (i := i) (x := Done v) in Hm.
    + destruct Hm as (w & Hw & Hsv). simpl in Hsv. congruence.
    + apply list_lookup_insert_eq. by eapply lookup_lt_Some.
  - intros j p w Hp Hw. unfold respond. rewrite HB, Hi. simpl.
    rewrite (interceptResponse_absorbable _ _ _ Ha). simpl. rewrite Hd. simpl.
    rewrite Hs, Hm. simpl.
    apply (resolveAll_resolves _ _ _ j p w); try done.
    apply forEachModel_promises_mono.
    destruct (lookup_lt_is_Some_2 (b_keys B) j) as [k Hk].
    { rewrite L1. by eapply lookup_lt_Some. }
    by destruct (Ho j k p Hk Hp).
Qed.

Lemma batch_resolves_positionally_witness :
  let k1 := mkKey (VStr "flows") (VStr "1") VUndefined in
  let k2 := mkKey (VStr "flows") (VStr "2") VUndefined in
  let f1 := VObj [("type", VStr "flows"); ("id", VStr "1")] in
  let f2 := VObj [("type", VStr "flows"); ("id", VStr "2")] in
  let s0 := dispatchBatch (loadAll [k1; k2] newEnvoyAPI).2 in
  let s := respond 0 1 (Success (mkResponse 200 (VObj [("data", f2)]))) s0 in
  let s' := respond 0 0 (Success (mkResponse 200 (VObj [("data", f1)]))) s in
  [f1; f2] !! 0 = Some f1 ∧
  ∀ j p w, [0; 1] !! j = Some p → [f1; f2] !! j = Some w →
           promises s' !! p = Some (Fulfilled w).
Proof.
  intros k1 k2 f1 f2 s0 s.
  apply (batch_resolves_positionally s 0 0
           {| b_keys := [k1; k2]; b_callbacks := [0; 1];
              b_slots := [Waiting; Done f2]; b_settled := false |}
           (mkResponse 200 (VObj [("data", f1)])) [f1] f1 [f1; f2]).
  - exists [ELoad k1; ELoad k2; ETick;
            ERespond 0 1 (Success (mkResponse 200 (VObj [("data", f2)])))].
    reflexivity.
  - reflexivity.
  - reflexivity.
  - reflexivity.
  - exists f1, VUndefined. split_and!; [reflexivity..|]. repeat constructor.
  - reflexivity.
  - reflexivity.
Defined.

(** X3. In every state the loader can reach, a cache key is being fetched
    at most once: among the batch being collected and the dispatched batches
    that have not settled, no two positions hold keys with the same cache
    key. *)
Theorem one_pending_fetch_per_cache_key s :
  reachable s →
  NoDup (cacheKeyFn <$> batch_keys s) ∧
  (∀ b B i key j key',
     inflight s !! b = Some B → b_settled B = false →
     b_keys B !! i = Some key → batch_keys s !! j = Some key' →
     cacheKeyFn key ≠ cacheKeyFn key') ∧
  (∀ b B i key b' B' j key',
     inflight s !! b = Some B → b_settled B = false → b_keys B !! i = Some key →
     inflight s !! b' = Some B' → b_settled B' = false → b_keys B' !! j = Some key' →
     cacheKeyFn key = cacheKeyFn key' → b = b' ∧ i = j).
Proof.
  intros Hreach. pose proof (reachable_wf s Hreach) as Hwf.
  pose proof Hwf as [H1 H2 H3 H4 H5]. split_and!.
  - by apply wf_batch_keys_NoDup.
  - intros b B i key j key' HB Hs Hk Hk' E.
    destruct (H4 b B HB) as (L1 & _ & _ & Ha & Ho).
    destruct (lookup_lt_is_Some_2 (b_callbacks B) i) as [p Hp].
    { rewrite <- L1. by eapply lookup_lt_Some. }
    destruct (lookup_lt_is_Some_2 (batch_callbacks s) j) as [q Hq].
    { rewrite <- H1. by eapply lookup_lt_Some. }
    assert (p = q) as ->.
    { by eapply (owns_same_key (b_keys B) (b_callbacks B) (batch_keys s)
                   (batch_callbacks s) s i key p j key' q); eauto. }
    destruct (Ha q) as [_ Hn]; [by eapply list_elem_of_lookup_2|].
    apply Hn. by eapply list_elem_of_lookup_2.
  - intros b B i key b' B' j key' HB Hs Hk HB' Hs' Hk' E.
    destruct (H4 b B HB) as (L1 & _ & Nd & _ & Ho).
    destruct (H4 b' B' HB') as (L1' & _ & _ & _ & Ho').
    destruct (lookup_lt_is_Some_2 (b_callbacks B) i) as [p Hp].
    { rewrite <- L1. by eapply lookup_lt_Some. }
    destruct (lookup_lt_is_Some_2 (b_callbacks B') j) as [q Hq].
    { rewrite <- L1'. by eapply lookup_lt_Some. }
    assert (p = q) as ->.
    { by eapply (owns_same_key (b_keys B) (b_callbacks B) (b_keys B')
                   (b_callbacks B') s i key p j key' q); eauto. }
    assert (b = b') as <-.
    { eapply (H5 b B b' B' q); eauto; by eapply list_elem_of_lookup_2. }
    split; [done|]. assert (B' = B) as -> by congruence.
    by eapply NoDup_lookup.
Qed.

Lemma one_pending_fetch_per_cache_key_witness :
  let k1 := mkKey (VStr "flows") (VStr "1") VUndefined in
  let k2 := mkKey (VStr "flows") (VStr "2") VUndefined in
  let s := run [ELoad k1; ETick; ELoad k2; ELoad k1] newEnvoyAPI in
  NoDup (cacheKeyFn <$> batch_keys s) ∧
  (∀ b B i key j key',
     inflight s !! b = Some B → b_settled B = false →
     b_keys B !! i = Some key → batch_keys s !! j = Some key' →
     cacheKeyFn key ≠ cacheKeyFn key') ∧
  (∀ b B i key b' B' j key',
     inflight s !! b = Some B → b_settled B = false → b_keys B !! i = Some key →
     inflight s !! b' = Some B' → b_settled B' = false → b_keys B' !! j = Some key' →
     cacheKeyFn key = cacheKeyFn key' → b = b' ∧ i = j).
Proof.
  intros k1 k2 s. apply (one_pending_fetch_per_cache_key s).
  exists [ELoad k1; ETick; ELoad k2; ELoad k1]. reflexivity.
Defined.

(** * Further results: the interceptor *)

Lemma forEachModel_app l1 l2 s :
  forEachModel (l1 ++ l2) s =
  match forEachModel l1 s with
  | (Normal _, s1) => forEachModel l2 s1
  | (Throw e, s1) => (Throw e, s1)
  end.
Proof.
  revert s. induction l1 as [|m l1 IH]; intros s; simpl; [done|].
  destruct (primeModel m s) as [[[]|e] s1]; [apply IH|done].
Qed.







(** X5. The interceptor stops at the first value it cannot read: the
    request is rejected with a [TypeError], the resources that come before
    that value in the response have been primed all the same (each is
    cached), and those after it have not been looked at. *)
Theorem absorption_stops_at_unreadable s response included good bad rest :
  getProp (resp_data response) "data" = Normal (VArr (good ++ bad :: rest)) →
  getProp (resp_data response) "included" = Normal included →
  truthy included = false →
  Forall readable good →
  ¬ readable bad →
  interceptResponse response s = (Throw TypeError, (forEachModel good s).2) ∧
  ∀ model ty i, model ∈ good →
    getProp model "type" = Normal ty → getProp model "id" = Normal i →
    is_Some (cacheMap (forEachModel good s).2 !! cacheKeyFn (mkKey ty i VUndefined)).
Proof.
  intros Hd Hi Hf Hr Hbad. split.
  - unfold interceptResponse, modelsOf. rewrite Hd, Hi, Hf. simpl.
    rewrite forEachModel_app.
    pose proof (forEachModel_normal good s Hr) as Hn.
    destruct (forEachModel good s) as [[[]|e] s1]; simpl in *; [|done].
    unfold primeModel. by destruct bad.
  - intros model ty i Hin Ht Hid.
    by destruct (forEachModel_cached good s model ty i Hr Hin Ht Hid).
Qed.

Lemma absorption_stops_at_unreadable_witness :
  let item := VObj [("key", VStr "a"); ("value", VNum 1)] in
  let response := mkResponse 200 (VObj [("data", VArr ([item] ++ VNull :: [item]))]) in
  interceptResponse response newEnvoyAPI
    = (Throw TypeError, (forEachModel [item] newEnvoyAPI).2) ∧
  ∀ model ty i, model ∈ [item] →
    getProp model "type" = Normal ty → getProp model "id" = Normal i →
    is_Some (cacheMap (forEachModel [item] newEnvoyAPI).2
               !! cacheKeyFn (mkKey ty i VUndefined)).
Proof.
  intros item response.
  apply (absorption_stops_at_unreadable newEnvoyAPI response VUndefined
           [item] VNull [item]).
  - reflexivity.
  - reflexivity.
  - reflexivity.
  - repeat constructor.
  - intros H. exact H.
Defined.

(** * Further results: the methods of [EnvoyAPI] *)

Lemma underscore_splits t1 t2 i1 i2 :
  hasUnderscore t1 = false → hasUnderscore t2 = false →
  t1 +:+ "_" +:+ i1 = t2 +:+ "_" +:+ i2 → t1 = t2 ∧ i1 = i2.
Proof.
  revert t2. induction t1 as [|a t1 IH]; intros [|c t2] H1 H2 E; cbn in *.
  - by simplify_eq.
  - by simplify_eq.
  - by simplify_eq.
  - injection E as -> E. apply orb_false_elim in H1 as [_ H1].
    apply orb_false_elim in H2 as [_ H2].
    destruct (IH t2 H1 H2 E) as [-> ->]. done.
Qed.

(** X6. The accessors never share a cache entry by accident: two calls of
    accessors have the same cache key exactly when they load the same type
    with the same id (no accessor type contains the separator of the cache
    key), whatever their include directives. *)
Theorem accessors_share_entry_iff_same_identity type1 id1 include1 type2 id2 include2 :
  type1 ∈ accessorTypes → type2 ∈ accessorTypes →
  cacheKeyFn (mkKey (VStr type1) (VStr id1) (optional include1))
    = cacheKeyFn (mkKey (VStr type2) (VStr id2) (optional include2))
  ↔ type1 = type2 ∧ id1 = id2.
Proof.
  intros H1 H2. split; [|by intros [-> ->]].
  unfold cacheKeyFn. simpl. apply underscore_splits.
  - unfold accessorTypes in H1.
    repeat (apply elem_of_cons in H1 as [->|H1]; [reflexivity|]).
    by apply elem_of_nil in H1.
  - unfold accessorTypes in H2.
    repeat (apply elem_of_cons in H2 as [->|H2]; [reflexivity|]).
    by apply elem_of_nil in H2.
Qed.

Lemma accessors_share_entry_iff_same_identity_witness :
  cacheKeyFn (mkKey (VStr "sign-in-fields") (VStr "pages_7") (optional None))
    = cacheKeyFn (mkKey (VStr "sign-in-field-pages") (VStr "7") (optional (Some "x")))
  ↔ "sign-in-fields" = "sign-in-field-pages" ∧ "pages_7" = "7".
Proof.
  apply (accessors_share_entry_iff_same_identity
           "sign-in-fields" "pages_7" None "sign-in-field-pages" "7" (Some "x")).
  - unfold accessorTypes. set_solver.
  - unfold accessorTypes. set_solver.
Defined.

Lemma getData_requests request r s :
  requests (getData request r s).2 = requests s ++ [request].
Proof.
  unfold getData. pose proof (axiosCall_requests request r s) as Hr.
  by destruct (axiosCall request r s) as [[response|e] s1].
Qed.





(** ** Object literals *)

Lemma field_setField k k' v fs :
  field k (setField k' v fs) = if String.eqb k k' then v else field k fs.
Proof.
  induction fs as [|[k0 v0] fs IH]; simpl.
  - by destruct (String.eqb k k').
  - destruct (String.eqb k' k0) eqn:E0; simpl.
    + apply String.eqb_eq in E0 as ->. by destruct (String.eqb k k0).
    + rewrite IH. destruct (String.eqb k k0) eqn:E1; [|done].
      apply String.eqb_eq in E1 as ->.
      destruct (String.eqb k0 k') eqn:E2; [|done].
      apply String.eqb_eq in E2 as ->. by rewrite String.eqb_refl in E0.
Qed.

(** A property of [{ ...base, ...options }] is that of [options] when
    [options] has it, that of [base] otherwise. *)
Lemma field_spread k base options :
  NoDup options.*1 →
  field k (spread base options)
  = if decide (k ∈ options.*1) then field k options else field k base.
Proof.
  unfold spread. revert base.
  induction options as [|[k0 v0] options IH]; intros base Hnd.
  { rewrite decide_False; [done|]. apply not_elem_of_nil. }
  rewrite fmap_cons in Hnd. apply NoDup_cons in Hnd as [Hnin Hnd].
  cbn [foldl fst snd]. rewrite IH; [|done]. rewrite field_setField.
  rewrite fmap_cons. cbn [fst field].
  destruct (String.eqb k k0) eqn:E.
  - apply String.eqb_eq in E as ->.
    rewrite (decide_False (P := k0 ∈ options.*1)); [|done].
    rewrite decide_True; [done|left].
  - apply String.eqb_neq in E.
    destruct (decide (k ∈ options.*1)) as [Hin|Hnin'].
    + rewrite decide_True; [done|by right].
    + rewrite decide_False; [done|]. by intros [?|?]%elem_of_cons.
Qed.

Lemma spread_nil_field k options :
  NoDup options.*1 → field k (spread [] options) = field k options.
Proof.
  intros Hnd. rewrite field_spread; [|done]. case_decide as H; [done|].
  simpl. clear Hnd. induction options as [|[k0 v0] options IH]; [done|]. simpl.
  destruct (String.eqb k k0) eqn:E.
  - apply String.eqb_eq in E as ->. exfalso. apply H. simpl. left.
  - apply IH. intros Hin. apply H. simpl. by right.
Qed.

(** X9. [updateInvite] and [partialUpdateInvite] always name, in the body
    they send, the invite of the URL: the [id] of the body is [inviteId]
    even when the invite passed in carries another id, and every other
    property is sent as given. *)
Theorem updateInvite_body_names_the_invite inviteId invite r s :
  NoDup invite.*1 →
  ∃ body,
    requests (updateInvite inviteId invite r s).2
      = requests s ++ [dataRequest "PUT" ("/api/v3/invites/" +:+ inviteId)
                         (VObj [("data", VObj body)])] ∧
    requests (partialUpdateInvite inviteId invite r s).2
      = requests s ++ [dataRequest "PATCH" ("/api/v3/invites/" +:+ inviteId)
                         (VObj [("data", VObj body)])] ∧
    field "id" body = VStr inviteId ∧
    ∀ k, k ≠ "id" → field k body = field k invite.
Proof.
  intros Hnd. exists (inviteWithId invite inviteId). split_and!.
  - apply getData_requests.
  - apply getData_requests.
  - unfold inviteWithId. by rewrite field_setField.
  - intros k Hk. unfold inviteWithId. rewrite field_setField.
    apply String.eqb_neq in Hk. rewrite Hk. by apply spread_nil_field.
Qed.

Lemma updateInvite_body_names_the_invite_witness :
  let invite := [("type", VStr "invites"); ("id", VStr "999");
                 ("attributes", VObj [("expected-arrival-time", VStr "2021-01-01")])] in
  ∃ body,
    requests (updateInvite "12" invite (Failure (AxiosError "Network Error"))
                newEnvoyAPI).2
      = requests newEnvoyAPI ++ [dataRequest "PUT" ("/api/v3/invites/" +:+ "12")
                                   (VObj [("data", VObj body)])] ∧
    requests (partialUpdateInvite "12" invite (Failure (AxiosError "Network Error"))
                newEnvoyAPI).2
      = requests newEnvoyAPI ++ [dataRequest "PATCH" ("/api/v3/invites/" +:+ "12")
                                   (VObj [("data", VObj body)])] ∧
    field "id" body = VStr "12" ∧
    ∀ k, k ≠ "id" → field k body = field k invite.
Proof.
  intros invite.
  apply (updateInvite_body_names_the_invite "12" invite
           (Failure (AxiosError "Network Error")) newEnvoyAPI).
  apply (bool_decide_unpack _). by vm_compute.
Defined.

(** X10. The methods that return nothing ([removeInvite], [updateJob],
    [setPluginInstallConfig], [createNotification]) send their request
    first; a failure of the transport is passed on as it is; a response that
    holds resources resolves the call to [undefined]; and a successful
    response with an empty body, or a body without [data] and [included],
    rejects the call with a [TypeError], although the request has been sent
    and answered. *)
Theorem calls_without_result_outcome request s :
  (∀ r, requests (sendOnly request r s).2 = requests s ++ [request]) ∧
  (∀ e, sendOnly request (Failure e) s = (Throw e, logRequest request s)) ∧
  (∀ response models, absorbable response models →
     (sendOnly request (Success response) s).1 = Normal VUndefined) ∧
  (∀ status,
     sendOnly request (Success (mkResponse status (VStr ""))) s
     = (Throw TypeError, logRequest request s)) ∧
  (∀ status fs,
     field "data" fs = VUndefined ∨ field "data" fs = VNull →
     truthy (field "included" fs) = false →
     sendOnly request (Success (mkResponse status (VObj fs))) s
     = (Throw TypeError, logRequest request s)).
Proof.
  split_and!.
  - intros r. unfold sendOnly. pose proof (axiosCall_requests request r s) as Hr.
    by destruct (axiosCall request r s) as [[response|e] s1].
  - done.
  - intros response models Ha. unfold sendOnly, axiosCall. simpl.
    by rewrite (interceptResponse_absorbable _ _ _ Ha).
  - done.
  - intros status fs Hd Hi. unfold sendOnly, axiosCall. simpl.
    by rewrite interceptResponse_missing_data.
Qed.

(** * Further results: the storage pipeline *)

(** X11. A pipeline that is created, filled by a chain of builder calls and
    executed sends one POST whose commands are those of the calls, in call
    order, with the installation id it was created with when that is a
    non-empty string; the chain returns the pipeline it started from. *)
Theorem built_pipeline_sends_its_commands installId cs transport h api :
  let created := Pipeline.new installId h in
  let built := Pipeline.chain cs created.1 created.2 in
  built.1 = created.1 ∧
  requests (Pipeline.execute built.1 transport built.2 api).2
  = requests api ++ [storageRequest (Pipeline.commandOf <$> cs) installId] ∧
  getProp (req_data (storageRequest (Pipeline.commandOf <$> cs) installId)) "install_id"
  = Normal (if truthy installId then installId else VUndefined).
Proof.
  simpl.
  assert ((h ++ [ {| Pipeline.installId := installId; Pipeline.commands := [] |} ])
            !! length h
          = Some {| Pipeline.installId := installId; Pipeline.commands := [] |}) as Hp.
  { rewrite lookup_app_r; [|done]. by rewrite Nat.sub_diag. }
  destruct (chain_appends cs _ _ _ Hp) as (E1 & E2 & _). split_and!.
  - done.
  - rewrite E1. by rewrite (execute_request _ _ _ _ _ E2).
  - unfold storageRequest. simpl. by destruct (truthy installId).
Qed.

(** X12. Pipelines do not interfere: builder calls on one pipeline leave
    the commands of every other pipeline of the heap as they were, so each
    pipeline executes its own commands. *)
Theorem builder_calls_leave_other_pipelines cs this other h p q transport api :
  h !! this = Some p → h !! other = Some q → other ≠ this →
  let h' := (Pipeline.chain cs this h).2 in
  h' !! other = Some q ∧
  requests (Pipeline.execute other transport h' api).2
  = requests (Pipeline.execute other transport h api).2.
Proof.
  intros Hp Hq Hne. simpl.
  destruct (chain_appends cs this h p Hp) as (_ & _ & E3).
  assert ((Pipeline.chain cs this h).2 !! other = Some q) as Hq'.
  { by rewrite E3. }
  split; [done|].
  by rewrite (execute_request _ _ _ _ _ Hq'), (execute_request _ _ _ _ _ Hq).
Qed.

Lemma builder_calls_leave_other_pipelines_witness :
  let first := Pipeline.new VUndefined [] in
  let second := Pipeline.new (VStr "install-1") first.2 in
  let h := (Pipeline.get second.1 "b" second.2).2 in
  let transport := λ _ : AxiosRequest, Failure (AxiosError "Network Error") in
  let h' := (Pipeline.chain [Pipeline.CSet "a" (VNum 1); Pipeline.CUnset "c"]
               first.1 h).2 in
  h' !! second.1
    = Some {| Pipeline.installId := VStr "install-1";
              Pipeline.commands := [VObj [("action", VStr "get"); ("key", VStr "b")]] |} ∧
  requests (Pipeline.execute second.1 transport h' newEnvoyAPI).2
  = requests (Pipeline.execute second.1 transport h newEnvoyAPI).2.
Proof.
  intros first second h transport.
  apply (builder_calls_leave_other_pipelines
           [Pipeline.CSet "a" (VNum 1); Pipeline.CUnset "c"] first.1 second.1 h
           {| Pipeline.installId := VUndefined; Pipeline.commands := [] |}).
  - reflexivity.
  - reflexivity.
  - discriminate.
Defined.

(** X13. The command [setUnique] and [setUniqueNum] push carries every
    option as given; its [action] and [key] are those of the method unless
    the options hold properties of these names, which then take their
    place. *)
Theorem setUnique_command_carries_options this key options h p :
  h !! this = Some p →
  NoDup options.*1 →
  ∃ command numCommand,
    (Pipeline.setUnique this key (Some options) h).2 !! this
      = Some {| Pipeline.installId := Pipeline.installId p;
                Pipeline.commands := Pipeline.commands p ++ [VObj command] |} ∧
    (Pipeline.setUniqueNum this key (Some options) h).2 !! this
      = Some {| Pipeline.installId := Pipeline.installId p;
                Pipeline.commands := Pipeline.commands p ++ [VObj numCommand] |} ∧
    (∀ k, k ∈ options.*1 →
          field k command = field k options ∧ field k numCommand = field k options) ∧
    ("action" ∉ options.*1 →
       field "action" command = VStr "set_unique" ∧
       field "action" numCommand = VStr "set_unique_num") ∧
    ("key" ∉ options.*1 →
       field "key" command = VStr key ∧ field "key" numCommand = VStr key).
Proof.
  intros Hp Hnd.
  exists (spread [("action", VStr "set_unique"); ("key", VStr key)] options),
         (spread [("action", VStr "set_unique_num"); ("key", VStr key)] options).
  split_and!.
  - unfold Pipeline.setUnique, Pipeline.addCommand. cbn [fst snd].
    by rewrite list_lookup_alter_eq, Hp.
  - unfold Pipeline.setUniqueNum, Pipeline.addCommand. cbn [fst snd].
    by rewrite list_lookup_alter_eq, Hp.
  - intros k Hk. rewrite !field_spread by done. by rewrite !decide_True.
  - intros Hk. rewrite !field_spread by done. by rewrite !decide_False.
  - intros Hk. rewrite !field_spread by done. by rewrite !decide_False.
Qed.

Lemma setUnique_command_carries_options_witness :
  let created := Pipeline.new VUndefined [] in
  let options := [("chars", VStr "0123456789"); ("size", VNum 6)] in
  ∃ command numCommand,
    (Pipeline.setUnique created.1 "code" (Some options) created.2).2 !! created.1
      = Some {| Pipeline.installId := VUndefined;
                Pipeline.commands := [] ++ [VObj command] |} ∧
    (Pipeline.setUniqueNum created.1 "code" (Some options) created.2).2 !! created.1
      = Some {| Pipeline.installId := VUndefined;
                Pipeline.commands := [] ++ [VObj numCommand] |} ∧
    (∀ k, k ∈ options.*1 →
          field k command = field k options ∧ field k numCommand = field k options) ∧
    ("action" ∉ options.*1 →
       field "action" command = VStr "set_unique" ∧
       field "action" numCommand = VStr "set_unique_num") ∧
    ("key" ∉ options.*1 →
       field "key" command = VStr "code" ∧ field "key" numCommand = VStr "code").
Proof.
  intros created options.
  apply (setUnique_command_carries_options created.1 "code" options created.2
           {| Pipeline.installId := VUndefined; Pipeline.commands := [] |}).
  - reflexivity.
  - apply (bool_decide_unpack _). by vm_compute.
Defined.

(** X14. When no result is [null], [executeSingle] resolves to the first
    result of the transport's list and drops the others. *)
Theorem executeSingle_returns_first_result this transport h api p status first rest :
  h !! this = Some p →
  transport (storageRequest (Pipeline.commands p) (Pipeline.installId p))
    = Success (mkResponse status (VObj [("data", VArr (first :: rest))])) →
  Forall readable (first :: rest) →
  (Pipeline.executeSingle this transport h api).1 = Normal first.
Proof.
  intros Hp Ht Hr.
  unfold Pipeline.executeSingle, Pipeline.execute, storagePipeline, axiosCall.
  rewrite Hp, Ht. simpl.
  rewrite (interceptResponse_absorbable _ (first :: rest)).
  - done.
  - exists (VArr (first :: rest)), VUndefined. by split_and!.
Qed.

Lemma executeSingle_returns_first_result_witness :
  let created := Pipeline.new VUndefined [] in
  let built := Pipeline.chain [Pipeline.CGet "a"] created.1 created.2 in
  let item := VObj [("key", VStr "a"); ("value", VNum 1)] in
  let transport := λ _ : AxiosRequest,
    Success (mkResponse 200 (VObj [("data", VArr [item])])) in
  (Pipeline.executeSingle built.1 transport built.2 newEnvoyAPI).1 = Normal item.
Proof.
  intros created built item transport.
  apply (executeSingle_returns_first_result built.1 transport built.2 newEnvoyAPI
           {| Pipeline.installId := VUndefined;
              Pipeline.commands := [VObj [("action", VStr "get"); ("key", VStr "a")]] |}
           200 item []).
  - reflexivity.
  - reflexivity.
  - repeat constructor.
Defined.

(** The witness of [execute_returns_results]. *)
Lemma execute_returns_results_witness :
  let created := Pipeline.new VUndefined [] in
  let built :=
    Pipeline.chain [Pipeline.CSet "a" (VNum 1); Pipeline.CGet "a"] created.1 created.2 in
  let item := VObj [("key", VStr "a"); ("value", VNum 1)] in
  let transport := λ _ : AxiosRequest,
    Success (mkResponse 200 (VObj [("data", VArr [item; item])])) in
  (Pipeline.execute built.1 transport built.2 newEnvoyAPI).1 = Normal (VArr [item; item]).
Proof.
  intros created built item transport.
  apply (execute_returns_results built.1 transport built.2 newEnvoyAPI
           {| Pipeline.installId := VUndefined;
              Pipeline.commands :=
                [VObj [("action", VStr "set"); ("key", VStr "a"); ("value", VNum 1)];
                 VObj [("action", VStr "get"); ("key", VStr "a")]] |}
           200 [item; item]).
  - reflexivity.
  - reflexivity.
  - repeat constructor.
Defined.

(** * Further results: the signature verifier *)

Lemma timingSafeEqual_true a b :
  EnvoySignatureVerifier.timingSafeEqual a b = EnvoySignatureVerifier.Returns true
  ↔ a = b.
Proof.
  unfold EnvoySignatureVerifier.timingSafeEqual. split.
  - destruct (Nat.eqb (String.length a) (String.length b)); [|done].
    intros [= E]. by apply String.eqb_eq.
  - intros ->. by rewrite Nat.eqb_refl, String.eqb_refl.
Qed.

(** X15. [verify] returns [true] exactly when the request carries a
    non-empty signature header whose value is the digest of the raw body
    under the verifier's algorithm, secret and encoding. *)
Theorem verify_accepts_exactly_the_digest hmac options headers rawBody :
  EnvoySignatureVerifier.verify hmac options headers rawBody
    = EnvoySignatureVerifier.Returns true
  ↔ ∃ received key,
      headers !! EnvoySignatureVerifier.header options = Some received ∧
      received ≠ "" ∧
      EnvoySignatureVerifier.secret options = Some key ∧
      hmac (EnvoySignatureVerifier.algorithm options) key rawBody
           (EnvoySignatureVerifier.encoding options) = inr received.
Proof.
  unfold EnvoySignatureVerifier.verify. split.
  - destruct (headers !! EnvoySignatureVerifier.header options) as [received|];
      [|done].
    destruct (String.eqb received "") eqn:E; [done|]. apply String.eqb_neq in E.
    destruct (EnvoySignatureVerifier.secret options) as [key|]; [|done].
    destruct (hmac _ key rawBody _) as [code|digest] eqn:Eh; [done|].
    intros ->%timingSafeEqual_true. by exists digest, key.
  - intros (received & key & -> & Hne & -> & ->).
    apply String.eqb_neq in Hne. rewrite Hne. by apply timingSafeEqual_true.
Qed.

(** X16. A signature whose length differs from that of the digest is not
    answered with [false]: [verify] throws, with the error of
    [crypto.timingSafeEqual]. *)
Theorem verify_throws_on_other_length hmac options headers rawBody received key digest :
  headers !! EnvoySignatureVerifier.header options = Some received →
  received ≠ "" →
  EnvoySignatureVerifier.secret options = Some key →
  hmac (EnvoySignatureVerifier.algorithm options) key rawBody
       (EnvoySignatureVerifier.encoding options) = inr digest →
  String.length received ≠ String.length digest →
  EnvoySignatureVerifier.verify hmac options headers rawBody
    = EnvoySignatureVerifier.Throws "ERR_CRYPTO_TIMING_SAFE_EQUAL_LENGTH".
Proof.
  intros Hh Hne Hs Hd Hlen. unfold EnvoySignatureVerifier.verify.
  apply String.eqb_neq in Hne. rewrite Hh, Hne, Hs, Hd.
  unfold EnvoySignatureVerifier.timingSafeEqual.
  apply Nat.eqb_neq in Hlen. by rewrite Hlen.
Qed.

Lemma verify_throws_on_other_length_witness :
  let hmac := λ (algorithm key data encoding : string),
    inr (algorithm +:+ ":" +:+ key +:+ ":" +:+ data) : string + string in
  let options := EnvoySignatureVerifier.defaultOptions (Some "s3cret") in
  let headers : gmap string string := {[ "x-envoy-signature" := "forged" ]} in
  EnvoySignatureVerifier.verify hmac options headers "{}"
    = EnvoySignatureVerifier.Throws "ERR_CRYPTO_TIMING_SAFE_EQUAL_LENGTH".
Proof.
  intros hmac options headers.
  apply (verify_throws_on_other_length hmac options headers "{}" "forged" "s3cret"
           "sha256:s3cret:{}").
  - reflexivity.
  - discriminate.
  - reflexivity.
  - reflexivity.
  - discriminate.
Defined.


(** X18. The constructor takes the secret of the options when the options
    have that property, even if it holds [undefined] or the empty string,
    and the secret of the environment otherwise; it throws when the secret
    it took is missing or empty, so that every verifier it returns has a
    non-empty secret and the options given over the defaults. *)
Theorem constructor_needs_a_secret envoyClientSecret given :
  let effective :=
    default envoyClientSecret (EnvoySignatureVerifier.g_secret given) in
  match EnvoySignatureVerifier.new envoyClientSecret (Some given) with
  | inr verifier =>
      verifier = EnvoySignatureVerifier.merge
                   (EnvoySignatureVerifier.defaultOptions envoyClientSecret) given ∧
      ∃ key, effective = Some key ∧ key ≠ "" ∧
             EnvoySignatureVerifier.secret verifier = Some key
  | inl _ => effective = None ∨ effective = Some ""
  end.
Proof.
  simpl. unfold EnvoySignatureVerifier.new, EnvoySignatureVerifier.hasSecret. simpl.
  destruct (default envoyClientSecret (EnvoySignatureVerifier.g_secret given))
    as [key|] eqn:E; [|by left].
  destruct (String.eqb key "") eqn:Ek; simpl.
  - apply String.eqb_eq in Ek as ->. by right.
  - split; [done|]. exists key. split_and!; [done| |done]. by apply String.eqb_neq.
Qed.

(** * Further results: batches are isolated *)

Lemma deliver_other_batch b i B result s b' :
  b' ≠ b → inflight (deliver b i B result s) !! b' = inflight s !! b'.
Proof.
  intros Hne. destruct (clearAll_frame (b_keys B) s) as (_ & _ & _ & Fi & _).
  destruct result as [v|e]; simpl.
  - destruct (b_settled B); [|destruct (mapM _ _)]; simpl;
      by rewrite list_lookup_insert_ne.
  - destruct (b_settled B); simpl; rewrite ?Fi; by rewrite list_lookup_insert_ne.
Qed.

Lemma respond_other_batch b i r s b' :
  b' ≠ b → inflight (respond b i r s) !! b' = inflight s !! b'.
Proof.
  intros Hne. unfold respond.
  destruct (inflight s !! b) as [B|] eqn:HB; [|done].
  destruct (b_slots B !! i) as [[]|] eqn:Hi; try done.
  destruct (axiosSettle_sameBatches r s) as (_ & _ & Ei).
  destruct (axiosSettle r s) as [answer s1]. simpl in *.
  rewrite deliver_other_batch; [|done]. by rewrite Ei.
Qed.

(** X20. Whatever the transport answers to a fetch of one batch, success or
    failure, the keys of the other batches are left alone: a key of another
    dispatched batch that has not settled, or of the batch being collected,
    keeps its cache entry and its promise stays pending. *)
Theorem answer_is_confined_to_its_batch s b i r :
  reachable s →
  let s' := respond b i r s in
  (∀ b' B' j key p,
     b' ≠ b → inflight s !! b' = Some B' → b_settled B' = false →
     b_keys B' !! j = Some key → b_callbacks B' !! j = Some p →
     cacheMap s' !! cacheKeyFn key = Some p ∧ promises s' !! p = Some Pending) ∧
  (∀ j key p,
     batch_keys s !! j = Some key → batch_callbacks s !! j = Some p →
     cacheMap s' !! cacheKeyFn key = Some p ∧ promises s' !! p = Some Pending).
Proof.
  intros Hreach. simpl.
  pose proof (wf_respond b i r s (reachable_wf s Hreach)) as [_ _ H3 H4 _].
  destruct (respond_batches b i r s) as (Ek & Ec & _). split.
  - intros b' B' j key p Hne HB' Hs Hk Hp.
    rewrite <- (respond_other_batch b i r s b' Hne) in HB'.
    destruct (H4 b' B' HB') as (_ & _ & _ & _ & Ho). by apply (Ho Hs j).
  - intros j key p Hk Hp. apply (H3 j); by rewrite ?Ek, ?Ec.
Qed.

Lemma answer_is_confined_to_its_batch_witness :
  let k1 := mkKey (VStr "flows") (VStr "1") VUndefined in
  let k2 := mkKey (VStr "flows") (VStr "2") VUndefined in
  let k3 := mkKey (VStr "flows") (VStr "3") VUndefined in
  let s := run [ELoad k1; ETick; ELoad k2; ETick; ELoad k3] newEnvoyAPI in
  let s' := respond 0 0 (Failure (AxiosError "Network Error")) s in
  (∀ b' B' j key p,
     b' ≠ 0 → inflight s !! b' = Some B' → b_settled B' = false →
     b_keys B' !! j = Some key → b_callbacks B' !! j = Some p →
     cacheMap s' !! cacheKeyFn key = Some p ∧ promises s' !! p = Some Pending) ∧
  (∀ j key p,
     batch_keys s !! j = Some key → batch_callbacks s !! j = Some p →
     cacheMap s' !! cacheKeyFn key = Some p ∧ promises s' !! p = Some Pending).
Proof.
  intros k1 k2 k3 s.
  apply (answer_is_confined_to_its_batch s 0 0 (Failure (AxiosError "Network Error"))).
  exists [ELoad k1; ETick; ELoad k2; ETick; ELoad k3]. reflexivity.
Defined.
